(** * SecureBuffer and SecureString: wipe-on-release, move-only containers

    A shallow embedding of

    - [SecureBuffer.cpp]  (class [SecureBuffer]: [std::unique_ptr<char[]>] plus a
      [size_t] length), and
    - [SecureString.cpp]  (class [SecureString]: a [std::vector<char>] holding the
      text and its terminator),

    over an explicit heap of byte blocks and a store of objects addressed by
    identity, so that [this != &other] and the order of wipes and releases can
    be stated. *)

From Stdlib Require Import ZArith Lia.
From Stdlib.Strings Require Import Byte.
From stdpp Require Import base option list gmap.

Local Open Scope Z_scope.

(** ** Machine integers *)

(** [size_t] is taken to be 64 bits wide; unsigned arithmetic wraps. *)
Definition SIZE_BITS : Z := 64.
Definition SIZE_MAX : Z := 2 ^ SIZE_BITS - 1.
Definition wrap (z : Z) : Z := z mod 2 ^ SIZE_BITS.
Definition is_size_t (z : Z) : Prop := 0 ≤ z ≤ SIZE_MAX.

(** ** Memory *)

Definition addr := nat.
Definition objid := nat.

(** A heap block keeps its bytes after it has been released: nothing can write
    to a dead block, so the bytes of a dead block are the bytes it held at the
    moment of its release. *)
Record block := Block { bytes : list byte; live : bool }.

Inductive pointer :=
  | Null
  | Ptr (a : addr) (off : Z).

Definition is_null (p : pointer) : bool :=
  match p with Null => true | Ptr _ _ => false end.

Definition ptr_add (p : pointer) (k : Z) : pointer :=
  match p with Null => Null | Ptr a off => Ptr a (off + k) end.

Definition ptr_diff (q p : pointer) : Z :=
  match q, p with
  | Ptr _ o2, Ptr _ o1 => o2 - o1
  | _, _ => 0
  end.

Inductive exn := bad_alloc.

(** Undefined behaviour the model detects instead of performing. *)
Inductive ub :=
  | NullDeref
  | WildPointer
  | OutOfBounds
  | UseAfterFree
  | BadFree
  | NoObject.

Definition zero : byte := x00.
Definition all_zero (bs : list byte) : Prop := Forall (λ b, b = zero) bs.

Section Machine.
(** [T] is the class whose instances live in the object store. *)
Context {T : Type}.

(** [avail] is what the allocator can still hand out; [junk] is what freshly
    obtained, uninitialised memory happens to hold. *)
Record state := State {
  blocks : list block;
  avail : Z;
  junk : byte;
  objs : gmap objid T
}.

Inductive outcome (A : Type) :=
  | Ok (a : A) (s : state)
  | Throw (e : exn) (s : state)
  | Fault (u : ub).
Global Arguments Ok {A} a s.
Global Arguments Throw {A} e s.
Global Arguments Fault {A} u.

Definition M (A : Type) : Type := state → outcome A.

Definition ret {A} (a : A) : M A := λ s, Ok a s.

Definition bind {A B} (m : M A) (k : A → M B) : M B := λ s,
  match m s with
  | Ok a s' => k a s'
  | Throw e s' => Throw e s'
  | Fault u => Fault u
  end.

Definition set_blocks (bl : list block) (s : state) : state :=
  State bl (avail s) (junk s) (objs s).
Definition set_objs (ob : gmap objid T) (s : state) : state :=
  State (blocks s) (avail s) (junk s) ob.

(** [operator new[]]: a fresh block of [n] uninitialised bytes, or
    [std::bad_alloc]. A request of zero bytes yields a non-null pointer. *)
Definition alloc (n : Z) : M pointer := λ s,
  if decide (n ≤ avail s) then
    Ok (Ptr (length (blocks s)) 0)
       (State (blocks s ++ [Block (replicate (Z.to_nat n) (junk s)) true])
              (avail s - n) (junk s) (objs s))
  else Throw bad_alloc s.

(** [operator delete[]]: the block dies and keeps its last bytes. *)
Definition release (p : pointer) : M unit := λ s,
  match p with
  | Null => Ok tt s
  | Ptr a off =>
      match blocks s !! a with
      | Some (Block bs true) =>
          if decide (off = 0) then
            Ok tt (State (<[a := Block bs false]> (blocks s))
                         (avail s + Z.of_nat (length bs)) (junk s) (objs s))
          else Fault BadFree
      | _ => Fault BadFree
      end
  end.

(** [*p = v] *)
Definition store (p : pointer) (v : byte) : M unit := λ s,
  match p with
  | Null => Fault NullDeref
  | Ptr a off =>
      match blocks s !! a with
      | Some (Block bs true) =>
          if decide (0 ≤ off < Z.of_nat (length bs)) then
            Ok tt (set_blocks
                     (<[a := Block (<[Z.to_nat off := v]> bs) true]> (blocks s)) s)
          else Fault OutOfBounds
      | Some (Block _ false) => Fault UseAfterFree
      | None => Fault WildPointer
      end
  end.

(** [*p] *)
Definition load (p : pointer) : M byte := λ s,
  match p with
  | Null => Fault NullDeref
  | Ptr a off =>
      match blocks s !! a with
      | Some (Block bs true) =>
          if decide (0 ≤ off) then
            match bs !! Z.to_nat off with
            | Some b => Ok b s
            | None => Fault OutOfBounds
            end
          else Fault OutOfBounds
      | Some (Block _ false) => Fault UseAfterFree
      | None => Fault WildPointer
      end
  end.

(** The object store: [get_obj] reads [*this], [set_obj] writes it (or brings
    the object into existence), [del_obj] ends its lifetime. *)
Definition get_obj (this : objid) : M T := λ s,
  match objs s !! this with
  | Some o => Ok o s
  | None => Fault NoObject
  end.
Definition set_obj (this : objid) (o : T) : M unit := λ s,
  Ok tt (set_objs (<[this := o]> (objs s)) s).
Definition del_obj (this : objid) : M unit := λ s,
  Ok tt (set_objs (delete this (objs s)) s).
End Machine.

Global Arguments state : clear implicits.
Global Arguments outcome : clear implicits.
Global Arguments M : clear implicits.

Declare Scope m_scope.
Delimit Scope m_scope with m.
Notation "x <- m ;; k" := (bind m (λ x, k))
  (at level 100, m at next level, k at level 200, right associativity) : m_scope.
Notation "m ;; k" := (bind m (λ _, k))
  (at level 100, k at level 200, right associativity) : m_scope.
Local Open Scope m_scope.

Section Loops.
Context {T : Type}.

(** [n] times [*p++ = v]. *)
Fixpoint fill_n (n : nat) (p : pointer) (v : byte) : M T unit :=
  match n with
  | O => ret tt
  | S k => store p v ;; fill_n k (ptr_add p 1) v
  end.

(** [std::fill(first, last, v)] *)
Definition std_fill (first last : pointer) (v : byte) : M T unit :=
  fill_n (Z.to_nat (ptr_diff last first)) first v.

(** [std::copy] of a byte sequence to [dst]. *)
Fixpoint copy_out (src : list byte) (dst : pointer) : M T unit :=
  match src with
  | [] => ret tt
  | b :: rest => store dst b ;; copy_out rest (ptr_add dst 1)
  end.

(** Relocation of [n] bytes from [src] to [dst]. *)
Fixpoint copy_n (n : nat) (src dst : pointer) : M T unit :=
  match n with
  | O => ret tt
  | S k => b <- load src ;; store dst b ;; copy_n k (ptr_add src 1) (ptr_add dst 1)
  end.

(** [while (len--) { *p++ = 0; }]: the body runs once for each unit of
    [len]; that the counter wraps to [SIZE_MAX] when the loop is left is never
    observed. *)
Definition wipe_loop (p : pointer) (len : Z) : M T unit :=
  fill_n (Z.to_nat len) p zero.

(** [new char[n]()]: allocation followed by value-initialisation. *)
Definition new_array (n : Z) : M T pointer :=
  p <- alloc n ;; fill_n (Z.to_nat n) p zero ;; ret p.
End Loops.

(** ** SecureBuffer *)

Module SecureBuffer.

(** Modelled from the spec: the class declaration [include/SecureBuffer.hpp]
    is not among the sources. The two members are the exclusively owned
    byte array and its length of the specification, under the names and
    with the types the member functions use them:
    [std::unique_ptr<char[]> data; size_t size;]. *)
Record t := Obj { data : pointer; size : Z }.

(** [secure_wipe(void *ptr, size_t len)]:
    [if (!ptr || len == 0) return;], then the loop over a
    [volatile char *]. *)
Definition secure_wipe (ptr : pointer) (len : Z) : M t unit :=
  if is_null ptr || (len =? 0) then ret tt
  else wipe_loop ptr len.

(** [SecureBuffer(size_t s) : data(std::make_unique<char[]>(s)), size(s)]
    and its body. The object is in the store once its constructor has
    returned. *)
Definition ctor (this : objid) (s : Z) : M t unit :=
  d <- new_array s ;;
  let me := Obj d s in
  (if negb (is_null (data me))
   then std_fill (data me) (ptr_add (data me) (size me)) zero
   else ret tt) ;;
  set_obj this me.

(** [SecureBuffer(SecureBuffer &&other)
      : data(std::move(other.data)), size(std::exchange(other.size, 0))] *)
Definition move_ctor (this other : objid) : M t unit :=
  o <- get_obj other ;;
  let d := data o in
  set_obj other (Obj Null (size o)) ;;
  o <- get_obj other ;;
  let n := size o in
  set_obj other (Obj (data o) 0) ;;
  set_obj this (Obj d n).

(** The statement [secure_wipe(data.get(), size);] of [operator=] and of
    the destructor. *)
Definition wipe_self (this : objid) : M t unit :=
  me <- get_obj this ;;
  secure_wipe (data me) (size me).

(** [swap(data, other.data); swap(size, other.size);] *)
Definition swap_members (this other : objid) : M t unit :=
  me <- get_obj this ;; o <- get_obj other ;;
  set_obj this (Obj (data o) (size me)) ;;
  set_obj other (Obj (data me) (size o)) ;;
  me <- get_obj this ;; o <- get_obj other ;;
  set_obj this (Obj (data me) (size o)) ;;
  set_obj other (Obj (data o) (size me)).

(** [operator=(SecureBuffer &&other)] *)
Definition move_assign (this other : objid) : M t unit :=
  if decide (this ≠ other) then
    wipe_self this ;;
    swap_members this other
  else ret tt.

(** What follows the body of the destructor: [~unique_ptr] releases the
    array if there is one, and the object is gone. *)
Definition drop_members (this : objid) : M t unit :=
  me <- get_obj this ;;
  release (data me) ;;
  del_obj this.

(** [~SecureBuffer()] *)
Definition dtor (this : objid) : M t unit :=
  wipe_self this ;;
  drop_members this.

Definition data_ptr (this : objid) : M t pointer :=
  me <- get_obj this ;; ret (data me).

Definition size_bytes (this : objid) : M t Z :=
  me <- get_obj this ;; ret (size me).

(** A client's [this->data_ptr()[i] = v]. *)
Definition poke (this : objid) (i : Z) (v : byte) : M t unit :=
  p <- data_ptr this ;;
  store (ptr_add p i) v.

(** The object [this] holds the live array [a], whose bytes are [bs]. *)
Definition owns (s : state t) (this : objid) (a : addr) (bs : list byte) : Prop :=
  objs s !! this = Some (Obj (Ptr a 0) (Z.of_nat (length bs))) ∧
  blocks s !! a = Some (Block bs true).

(** The object [this] holds nothing. *)
Definition hollow (s : state t) (this : objid) : Prop :=
  objs s !! this = Some (Obj Null 0).

End SecureBuffer.

(** ** std::vector<char>, as far as SecureString uses it *)

Module Vector.

(** Start of the storage (null when there is none), number of elements,
    number of bytes of storage. *)
Record t := Vec { v_begin : pointer; v_size : Z; v_cap : Z }.

Definition empty : t := Vec Null 0 0.

Definition data (v : t) : pointer := v_begin v.
Definition size (v : t) : Z := v_size v.

(** [clear()]: no elements, storage kept. *)
Definition clear (v : t) : t := Vec (v_begin v) 0 (v_cap v).

(** [resize(n)]: shrinking drops elements; growing value-initialises the new
    ones, in place when the storage suffices, else in new storage of
    [size + max(size, n - size)] bytes to which the old elements are
    relocated before the old storage is returned. *)
Definition resize {T} (v : t) (n : Z) : M T t :=
  if n <=? v_size v then ret (Vec (v_begin v) n (v_cap v))
  else if n <=? v_cap v then
    fill_n (Z.to_nat (n - v_size v)) (ptr_add (v_begin v) (v_size v)) zero ;;
    ret (Vec (v_begin v) n (v_cap v))
  else
    let cap := v_size v + Z.max (v_size v) (n - v_size v) in
    p <- alloc cap ;;
    fill_n (Z.to_nat (n - v_size v)) (ptr_add p (v_size v)) zero ;;
    copy_n (Z.to_nat (v_size v)) (v_begin v) p ;;
    release (v_begin v) ;;
    ret (Vec p n cap).

(** Move construction: the new vector has the storage and the source is left
    empty, with no storage, as the implementations in use leave it. *)
Definition move (src : t) : t * t := (src, empty).

(** Move assignment: the target returns its own storage, takes the
    source's, and the source is left with none. *)
Definition move_assign {T} (dst src : t) : M T (t * t) :=
  release (v_begin dst) ;;
  ret (src, empty).

(** [~vector] *)
Definition dtor {T} (v : t) : M T unit := release (v_begin v).

End Vector.

(** ** SecureString *)

Module SecureString.

(** Member: [std::vector<char> data;] *)
Record t := Obj { data : Vector.t }.

(** [secure_wipe(void* ptr, size_t len)], the branch compiled when
    [__STDC_LIB_EXT1__] is not defined: the loop over a [volatile char*],
    with no test before it. *)
Definition secure_wipe (ptr : pointer) (len : Z) : M t unit :=
  wipe_loop ptr len.

(** [SecureString(const std::string& str)] *)
Definition ctor (this : objid) (str : list byte) : M t unit :=
  let n := Z.of_nat (length str) in
  d <- Vector.resize Vector.empty (wrap (n + 1)) ;;
  copy_out str (Vector.data d) ;;
  store (ptr_add (Vector.data d) n) zero ;;
  set_obj this (Obj d).

(** [other.secure_wipe(other.data.data(), other.data.size());
     other.data.clear();] *)
Definition wipe_other (other : objid) : M t unit :=
  o <- get_obj other ;;
  secure_wipe (Vector.data (data o)) (Vector.size (data o)) ;;
  o <- get_obj other ;;
  set_obj other (Obj (Vector.clear (data o))).

(** [SecureString(SecureString&& other) : data(std::move(other.data))] *)
Definition move_ctor (this other : objid) : M t unit :=
  o <- get_obj other ;;
  let '(mine, theirs) := Vector.move (data o) in
  set_obj other (Obj theirs) ;;
  wipe_other other ;;
  set_obj this (Obj mine).

(** The statement [secure_wipe(data.data(), data.size());] of [operator=]
    and of the destructor. *)
Definition wipe_self (this : objid) : M t unit :=
  me <- get_obj this ;;
  secure_wipe (Vector.data (data me)) (Vector.size (data me)).

(** [data = std::move(other.data);] and the two statements after it. *)
Definition take_from (this other : objid) : M t unit :=
  me <- get_obj this ;; o <- get_obj other ;;
  r <- Vector.move_assign (data me) (data o) ;;
  set_obj this (Obj (fst r)) ;;
  set_obj other (Obj (snd r)) ;;
  wipe_other other.

(** [operator=(SecureString&& other)] *)
Definition move_assign (this other : objid) : M t unit :=
  if decide (this ≠ other) then
    wipe_self this ;;
    take_from this other
  else ret tt.

(** What follows the body of the destructor: [~vector] returns the storage
    and the object is gone. *)
Definition drop_members (this : objid) : M t unit :=
  me <- get_obj this ;;
  Vector.dtor (data me) ;;
  del_obj this.

(** [~SecureString()] *)
Definition dtor (this : objid) : M t unit :=
  wipe_self this ;;
  drop_members this.

Definition c_str (this : objid) : M t pointer :=
  me <- get_obj this ;; ret (Vector.data (data me)).

(** [data.size() ? data.size() - 1 : 0] *)
Definition size (this : objid) : M t Z :=
  me <- get_obj this ;;
  ret (if Vector.size (data me) =? 0 then 0
       else wrap (Vector.size (data me) - 1)).

(** The object [this] holds the live storage [a], whose bytes [bs] are the
    elements of its vector. *)
Definition owns (s : state t) (this : objid) (a : addr) (bs : list byte) : Prop :=
  objs s !! this =
    Some (Obj (Vector.Vec (Ptr a 0) (Z.of_nat (length bs)) (Z.of_nat (length bs)))) ∧
  blocks s !! a = Some (Block bs true).

(** The object [this] holds nothing. *)
Definition hollow (s : state t) (this : objid) : Prop :=
  objs s !! this = Some (Obj Vector.empty).

End SecureString.

(** ** The two containers side by side *)

Module Container.

Inductive kind := Buf | Str.

Definition obj (k : kind) : Type :=
  match k with Buf => SecureBuffer.t | Str => SecureString.t end.

Definition owns (k : kind) : state (obj k) → objid → addr → list byte → Prop :=
  match k with Buf => SecureBuffer.owns | Str => SecureString.owns end.

Definition hollow (k : kind) : state (obj k) → objid → Prop :=
  match k with Buf => SecureBuffer.hollow | Str => SecureString.hollow end.

Definition hollow_obj (k : kind) : obj k :=
  match k with
  | Buf => SecureBuffer.Obj Null 0
  | Str => SecureString.Obj Vector.empty
  end.

Definition move_ctor (k : kind) : objid → objid → M (obj k) unit :=
  match k with Buf => SecureBuffer.move_ctor | Str => SecureString.move_ctor end.

Definition move_assign (k : kind) : objid → objid → M (obj k) unit :=
  match k with Buf => SecureBuffer.move_assign | Str => SecureString.move_assign end.

Definition dtor (k : kind) : objid → M (obj k) unit :=
  match k with Buf => SecureBuffer.dtor | Str => SecureString.dtor end.

Definition wipe_self (k : kind) : objid → M (obj k) unit :=
  match k with Buf => SecureBuffer.wipe_self | Str => SecureString.wipe_self end.

(** What [operator=] does after its wipe. *)
Definition hand_over (k : kind) : objid → objid → M (obj k) unit :=
  match k with Buf => SecureBuffer.swap_members | Str => SecureString.take_from end.

(** What the destructor does after its wipe. *)
Definition drop_members (k : kind) : objid → M (obj k) unit :=
  match k with Buf => SecureBuffer.drop_members | Str => SecureString.drop_members end.

(** [size_bytes()], respectively [size()]. *)
Definition size_of (k : kind) : objid → M (obj k) Z :=
  match k with Buf => SecureBuffer.size_bytes | Str => SecureString.size end.

(** [data_ptr()], respectively [c_str()]. *)
Definition storage_of (k : kind) : objid → M (obj k) pointer :=
  match k with Buf => SecureBuffer.data_ptr | Str => SecureString.c_str end.

(** Whether the storage an assignment overwrote is still allocated after
    the assignment: the buffer passes it on, the string returns it. *)
Definition live_after_assign (k : kind) : bool :=
  match k with Buf => true | Str => false end.

(** An object that has given its storage away: it reports size 0 and a null
    pointer, its destruction leaves the heap as it is, and so does a further
    move construction from it, which yields another such object. *)
Definition left_empty (k : kind) (s : state (obj k)) (a : objid) : Prop :=
  hollow k s a ∧
  size_of k a s = Ok 0 s ∧
  storage_of k a s = Ok Null s ∧
  dtor k a s = Ok tt (set_objs (delete a (objs s)) s) ∧
  ∀ c, c ≠ a →
    move_ctor k c a s = Ok tt (set_objs (<[c := hollow_obj k]> (objs s)) s).

(** The source [a] of a move assignment into an object that held the
    [n]-byte block [x]: the buffer's source now holds that block, wiped; the
    string's source is empty. *)
Definition source_after_assign (k : kind)
  : state (obj k) → objid → addr → nat → Prop :=
  match k with
  | Buf => λ s a x n, SecureBuffer.owns s a x (replicate n zero)
  | Str => λ s a _ _, left_empty Str s a
  end.

(** *** Machines a client can bring about *)

(** The pointer member of an object. *)
Definition storage (k : kind) : obj k → pointer :=
  match k with
  | Buf => SecureBuffer.data
  | Str => λ o, Vector.v_begin (SecureString.data o)
  end.

(** The object that holds block [a] of [n] bytes. *)
Definition full_obj (k : kind) (a : addr) (n : nat) : obj k :=
  match k with
  | Buf => SecureBuffer.Obj (Ptr a 0) (Z.of_nat n)
  | Str => SecureString.Obj (Vector.Vec (Ptr a 0) (Z.of_nat n) (Z.of_nat n))
  end.

(** An object is in order when it holds nothing, or holds a live block and
    records its length. *)
Definition good (k : kind) (bl : list block) (o : obj k) : Prop :=
  o = hollow_obj k ∨
  ∃ a bs, bl !! a = Some (Block bs true) ∧ o = full_obj k a (length bs).

(** A machine is in order when every object is, and no block has two
    holders. *)
Definition wf (k : kind) (s : state (obj k)) : Prop :=
  (∀ i o, objs s !! i = Some o → good k (blocks s) o) ∧
  (∀ i j oi oj, objs s !! i = Some oi → objs s !! j = Some oj →
     storage k oi = storage k oj → storage k oi ≠ Null → i = j).

(** The argument of the converting constructor: a [size_t], respectively a
    [std::string], which is shorter than [SIZE_MAX]. *)
Definition ctor_arg (k : kind) : Type :=
  match k with Buf => Z | Str => list byte end.

Definition arg_ok (k : kind) : ctor_arg k → Prop :=
  match k with
  | Buf => is_size_t
  | Str => λ str, Z.of_nat (length str) < SIZE_MAX
  end.

Definition ctor (k : kind) : objid → ctor_arg k → M (obj k) unit :=
  match k with Buf => SecureBuffer.ctor | Str => SecureString.ctor end.

(** The calls of the public interface that change the machine. *)
Inductive call (k : kind) :=
  | Construct (this : objid) (arg : ctor_arg k)
  | MoveConstruct (this other : objid)
  | MoveAssign (this other : objid)
  | Destroy (this : objid).
Global Arguments Construct {k} this arg.
Global Arguments MoveConstruct {k} this other.
Global Arguments MoveAssign {k} this other.
Global Arguments Destroy {k} this.

(** A constructor's argument has its type, and a move constructor makes a
    new object, which is not its own argument. *)
Definition call_ok {k : kind} (c : call k) : Prop :=
  match c with
  | Construct _ arg => arg_ok k arg
  | MoveConstruct this other => this ≠ other
  | MoveAssign _ _ => True
  | Destroy _ => True
  end.

Definition run {k : kind} (c : call k) : M (obj k) unit :=
  match c with
  | Construct this arg => ctor k this arg
  | MoveConstruct this other => move_ctor k this other
  | MoveAssign this other => move_assign k this other
  | Destroy this => dtor k this
  end.

(** The objects a call works on exist. *)
Definition call_live {k : kind} (c : call k) (s : state (obj k)) : Prop :=
  match c with
  | Construct _ _ => True
  | MoveConstruct _ other => is_Some (objs s !! other)
  | MoveAssign this other => is_Some (objs s !! this) ∧ is_Some (objs s !! other)
  | Destroy this => is_Some (objs s !! this)
  end.

(** What a client can do to the bytes through the accessor: write them
    through [char* data_ptr()]; nothing through [const char* c_str()]. *)
Definition client_write (k : kind) : state (obj k) → state (obj k) → Prop :=
  match k with
  | Buf => λ s s', ∃ this i v, SecureBuffer.poke this i v s = Ok tt s'
  | Str => λ _ _, False
  end.

(** The machines reached from start-up by calls that return and by client
    writes that are defined. *)
Inductive reachable (k : kind) : state (obj k) → Prop :=
  | reach_init budget j : reachable k (State [] budget j ∅)
  | reach_call s c s' :
      reachable k s → call_ok c → run c s = Ok tt s' → reachable k s'
  | reach_write s s' :
      reachable k s → client_write k s s' → reachable k s'.

(** *** What the calls do to the heap *)

(** What a constructor leaves in the block it obtains: zeros, respectively
    a text shorter than [SIZE_MAX] and its terminator. *)
Definition fresh_bytes (k : kind) (bs : list byte) : Prop :=
  match k with
  | Buf => all_zero bs
  | Str => ∃ str, bs = str ++ [zero] ∧ Z.of_nat (length str) < SIZE_MAX
  end.

(** The ways in which a heap changes: not at all; by one new live block;
    by new bytes in a live block of a buffer, whose length stays; by the
    zeroing and release of a live block. *)
Inductive heap_step (k : kind) (bl : list block) : list block → Prop :=
  | hs_same : heap_step k bl bl
  | hs_new bs :
      fresh_bytes k bs → heap_step k bl (bl ++ [Block bs true])
  | hs_write a bs bs' :
      k = Buf → bl !! a = Some (Block bs true) → length bs' = length bs →
      heap_step k bl (<[a := Block bs' true]> bl)
  | hs_release a bs :
      bl !! a = Some (Block bs true) →
      heap_step k bl (<[a := Block (replicate (length bs) zero) false]> bl).

(** No released block holds anything but zeros. *)
Definition dead_zero (bl : list block) : Prop :=
  ∀ a bs, bl !! a = Some (Block bs false) → all_zero bs.

(** Every live block holds a text shorter than [SIZE_MAX] and its
    terminator. *)
Definition live_terminated (bl : list block) : Prop :=
  ∀ a bs, bl !! a = Some (Block bs true) → fresh_bytes Str bs.

(** The wipe primitive of either class. *)
Definition secure_wipe (k : kind) : pointer → Z → M (obj k) unit :=
  match k with
  | Buf => SecureBuffer.secure_wipe
  | Str => SecureString.secure_wipe
  end.

(** The number of bytes a constructor asks the allocator for. *)
Definition demand (k : kind) : ctor_arg k → Z :=
  match k with
  | Buf => λ n, n
  | Str => λ str, Z.of_nat (length str) + 1
  end.

End Container.

(** The machine at start-up: nothing allocated, no objects. *)
Definition init {T} (budget : Z) (j : byte) : state T := State [] budget j ∅.

(** The machine a computation that returns leaves behind. *)
Definition after {T A} (m : M T A) (s : state T) : state T :=
  match m s with
  | Ok _ s' => s'
  | Throw _ s' => s'
  | Fault _ => s
  end.

(** The text ["secret"]. *)
Definition secret : list byte := [x73; x65; x63; x72; x65; x74].

(** * Properties *)

(** ** The memory layer *)

Section MemoryFacts.
Context {T : Type}.
Implicit Types (s : state T) (bs : list byte) (a : addr).

Lemma bind_ok {A B} (m : M T A) (k : A → M T B) s x s' :
  m s = Ok x s' → bind m k s = k x s'.
Proof. intros E. unfold bind. by rewrite E. Qed.

Lemma bind_throw {A B} (m : M T A) (k : A → M T B) s e s' :
  m s = Throw e s' → bind m k s = Throw e s'.
Proof. intros E. unfold bind. by rewrite E. Qed.

Lemma set_blocks_same s : set_blocks (blocks s) s = s.
Proof. by destruct s. Qed.

Lemma set_blocks_twice bl bl' s : set_blocks bl (set_blocks bl' s) = set_blocks bl s.
Proof. done. Qed.

Lemma insert_last {A} (l : list A) (x y : A) :
  <[length l := y]> (l ++ [x]) = l ++ [y].
Proof.
  rewrite <- (Nat.add_0_r (length l)) at 1. by rewrite insert_app_r.
Qed.

(** A store into a live block, in range, replaces one byte. *)
Lemma store_ok a (i : nat) v bs s :
  blocks s !! a = Some (Block bs true) →
  (i < length bs)%nat →
  store (Ptr a (Z.of_nat i)) v s =
    Ok tt (set_blocks (<[a := Block (<[i := v]> bs) true]> (blocks s)) s).
Proof.
  intros Ha Hi. unfold store. rewrite Ha.
  rewrite decide_True by lia. by rewrite Nat2Z.id.
Qed.

(** Copying [src] to offset [i] of a live block overwrites exactly the
    bytes [i .. i + length src) of it. *)
Lemma copy_out_ok (src : list byte) : ∀ a (i : nat) bs s,
  blocks s !! a = Some (Block bs true) →
  (i + length src ≤ length bs)%nat →
  copy_out src (Ptr a (Z.of_nat i)) s =
    Ok tt (set_blocks
             (<[a := Block (take i bs ++ src ++ drop (i + length src) bs) true]>
                (blocks s)) s).
Proof.
  induction src as [|b rest IH]; intros a i bs s Ha Hlen; simpl in *.
  - rewrite Nat.add_0_r, take_drop, list_insert_id by done.
    by rewrite set_blocks_same.
  - unfold bind. rewrite (store_ok a i b bs s) by (done || lia).
    replace (Z.of_nat i + 1) with (Z.of_nat (S i)) by lia.
    pose proof (lookup_lt_Some _ _ _ Ha) as Hlt.
    rewrite (IH a (S i) (<[i := b]> bs)); cycle 1.
    { simpl. by rewrite list_lookup_insert_eq. }
    { rewrite length_insert. lia. }
    simpl. rewrite set_blocks_twice, list_insert_insert_eq.
    do 3 f_equal.
    rewrite (take_S_r _ _ b) by (apply list_lookup_insert_eq; lia).
    rewrite take_insert_ge by lia.
    rewrite drop_insert_lt by lia.
    rewrite <- app_assoc. simpl.
    by replace (i + S (length rest))%nat with (S (i + length rest)) by lia.
Qed.

Lemma fill_n_copy_out n : ∀ p v, @fill_n T n p v = copy_out (replicate n v) p.
Proof. induction n as [|n IH]; intros p v; simpl; [done|]. by rewrite IH. Qed.

(** [n] stores of [v] from offset [i] of a live block. *)
Lemma fill_n_ok n a (i : nat) v bs s :
  blocks s !! a = Some (Block bs true) →
  (i + n ≤ length bs)%nat →
  fill_n n (Ptr a (Z.of_nat i)) v s =
    Ok tt (set_blocks
             (<[a := Block (take i bs ++ replicate n v ++ drop (i + n) bs) true]>
                (blocks s)) s).
Proof.
  intros Ha Hn. rewrite fill_n_copy_out.
  rewrite (copy_out_ok _ a i bs s), length_replicate; [done..|].
  rewrite length_replicate. lia.
Qed.

(** Filling a whole live block. *)
Lemma fill_n_whole a v bs s :
  blocks s !! a = Some (Block bs true) →
  fill_n (length bs) (Ptr a 0) v s =
    Ok tt (set_blocks (<[a := Block (replicate (length bs) v) true]> (blocks s)) s).
Proof.
  intros Ha. rewrite (fill_n_ok _ a 0 v bs s Ha) by (simpl; lia).
  simpl. by rewrite drop_all, app_nil_r.
Qed.

(** A fresh array is live, of the requested length, and zeroed. *)
Lemma new_array_ok n s :
  0 ≤ n → n ≤ avail s →
  new_array n s =
    Ok (Ptr (length (blocks s)) 0)
       (State (blocks s ++ [Block (replicate (Z.to_nat n) zero) true])
              (avail s - n) (junk s) (objs s)).
Proof.
  intros H0 Hn. unfold new_array, bind, alloc. rewrite decide_True by done.
  set (s1 := State _ _ _ _).
  assert (blocks s1 !! length (blocks s)
          = Some (Block (replicate (Z.to_nat n) (junk s)) true)) as Hnew.
  { subst s1; simpl. by apply list_lookup_middle. }
  pose proof (fill_n_whole _ zero _ s1 Hnew) as E.
  rewrite length_replicate in E. rewrite E.
  subst s1. unfold ret, set_blocks. simpl. f_equal. f_equal.
  apply insert_last.
Qed.

Lemma new_array_fails n s :
  avail s < n → new_array n s = Throw bad_alloc s.
Proof.
  intros Hn. unfold new_array, bind, alloc. by rewrite decide_False by lia.
Qed.

(** Reading offset [i] of a live block. *)
Lemma load_ok a (i : nat) b bs s :
  blocks s !! a = Some (Block bs true) →
  bs !! i = Some b →
  load (Ptr a (Z.of_nat i)) s = Ok b s.
Proof.
  intros Ha Hb. unfold load. rewrite Ha, decide_True by lia.
  by rewrite Nat2Z.id, Hb.
Qed.

End MemoryFacts.

(** ** SecureBuffer, statement by statement *)

Section BufferFacts.
Import SecureBuffer.
Implicit Types (s : state t) (bs : list byte) (a : addr) (this other : objid).

Lemma buffer_ctor_ok this n s :
  0 ≤ n → n ≤ avail s →
  ctor this n s =
    Ok tt (State (blocks s ++ [Block (replicate (Z.to_nat n) zero) true])
                 (avail s - n) (junk s)
                 (<[this := Obj (Ptr (length (blocks s)) 0) n]> (objs s))).
Proof.
  intros H0 Hn. unfold ctor, bind. rewrite new_array_ok by done. simpl.
  unfold std_fill. simpl.
  replace (Z.to_nat (0 + n - 0)) with (Z.to_nat n) by lia.
  set (s1 := State _ _ _ _).
  assert (blocks s1 !! length (blocks s)
          = Some (Block (replicate (Z.to_nat n) zero) true)) as Hnew.
  { subst s1; simpl. by apply list_lookup_middle. }
  pose proof (fill_n_whole _ zero _ s1 Hnew) as E.
  rewrite length_replicate in E. rewrite E.
  rewrite list_insert_id by done. by rewrite set_blocks_same.
Qed.

Lemma buffer_ctor_fails this n s :
  avail s < n → ctor this n s = Throw bad_alloc s.
Proof. intros Hn. unfold ctor, bind. by rewrite new_array_fails. Qed.

Lemma buffer_wipe_self_owned this a bs s :
  owns s this a bs →
  wipe_self this s =
    Ok tt (set_blocks (<[a := Block (replicate (length bs) zero) true]> (blocks s)) s).
Proof.
  intros [Hobj Ha]. unfold wipe_self, bind, get_obj. rewrite Hobj. simpl.
  unfold secure_wipe, wipe_loop. simpl.
  destruct (Z.eqb_spec (Z.of_nat (length bs)) 0) as [E|E].
  - assert (bs = []) as -> by (destruct bs; [done | simpl in E; lia]).
    simpl. rewrite list_insert_id by done. by rewrite set_blocks_same.
  - rewrite Nat2Z.id. by apply fill_n_whole.
Qed.

Lemma buffer_wipe_self_hollow this s :
  hollow s this → wipe_self this s = Ok tt s.
Proof. intros Hobj. unfold wipe_self, bind, get_obj. by rewrite Hobj. Qed.

Lemma buffer_swap_members_ok this other me o s :
  this ≠ other →
  objs s !! this = Some me → objs s !! other = Some o →
  swap_members this other s =
    Ok tt (set_objs (<[other := me]> (<[this := o]> (objs s))) s).
Proof.
  intros Hne Hme Ho.
  unfold swap_members, bind, get_obj, set_obj, set_objs. simpl.
  rewrite Hme, Ho.
  repeat (simpl; first [rewrite lookup_insert_eq
                       |rewrite lookup_insert_ne by done]).
  simpl. do 2 f_equal.
  destruct me as [d n], o as [d' n']. simpl.
  apply map_eq. intros k.
  destruct (decide (k = other)) as [->|]; [by rewrite !lookup_insert_eq|].
  destruct (decide (k = this)) as [->|].
  - rewrite lookup_insert_ne, !lookup_insert_eq by done.
    by rewrite lookup_insert_ne, lookup_insert_eq by done.
  - by rewrite !lookup_insert_ne by done.
Qed.

Lemma buffer_drop_members_owned this a n bs s :
  objs s !! this = Some (Obj (Ptr a 0) n) →
  blocks s !! a = Some (Block bs true) →
  drop_members this s =
    Ok tt (State (<[a := Block bs false]> (blocks s))
                 (avail s + Z.of_nat (length bs)) (junk s)
                 (delete this (objs s))).
Proof.
  intros Hobj Ha. unfold drop_members, bind, get_obj, release, del_obj.
  rewrite Hobj. simpl. by rewrite Ha.
Qed.

Lemma buffer_drop_members_hollow this s :
  hollow s this →
  drop_members this s = Ok tt (set_objs (delete this (objs s)) s).
Proof.
  intros Hobj. unfold drop_members, bind, get_obj. by rewrite Hobj.
Qed.

Lemma buffer_move_ctor_ok this other o s :
  objs s !! other = Some o →
  move_ctor this other s =
    Ok tt (set_objs (<[this := o]> (<[other := Obj Null 0]> (objs s))) s).
Proof.
  intros Ho. unfold move_ctor, bind, get_obj, set_obj, set_objs.
  rewrite Ho. simpl. rewrite lookup_insert_eq. simpl.
  rewrite insert_insert_eq. by destruct o.
Qed.

End BufferFacts.

(** ** SecureString, statement by statement *)

Section StringFacts.
Import SecureString.
Implicit Types (s : state t) (bs : list byte) (a : addr) (this other : objid).

Lemma wrap_small z : is_size_t z → wrap z = z.
Proof.
  unfold is_size_t, wrap, SIZE_MAX. intros Hz. apply Z.mod_small. lia.
Qed.

(** Growing the empty vector to [n] elements: new storage of exactly [n]
    bytes, all zero. *)
Lemma vector_resize_empty n s :
  0 < n → n ≤ avail s →
  Vector.resize Vector.empty n s =
    Ok (Vector.Vec (Ptr (length (blocks s)) 0) n n)
       (State (blocks s ++ [Block (replicate (Z.to_nat n) zero) true])
              (avail s - n) (junk s) (objs s)).
Proof.
  intros H0 Hn. unfold Vector.resize. simpl.
  destruct (Z.leb_spec n 0) as [?|_]; [lia|].
  replace (0 + Z.max 0 (n - 0)) with n by lia.
  replace (n - 0) with n by lia.
  erewrite bind_ok; cycle 1.
  { unfold alloc. by rewrite decide_True. }
  set (a := length (blocks s)). set (s1 := State _ _ _ _).
  assert (blocks s1 !! a
          = Some (Block (replicate (Z.to_nat n) (junk s)) true)) as Hnew.
  { subst s1; simpl. by apply list_lookup_middle. }
  pose proof (fill_n_whole a zero _ s1 Hnew) as E.
  rewrite length_replicate in E.
  simpl. replace (0 + 0) with 0 by lia.
  rewrite (bind_ok _ _ _ _ _ E). simpl.
  unfold bind, ret, set_blocks. subst s1. simpl. do 2 f_equal.
  subst a. apply insert_last.
Qed.

Lemma string_ctor_ok this (str : list byte) s :
  let n := Z.of_nat (length str) in
  n < SIZE_MAX → n + 1 ≤ avail s →
  ctor this str s =
    Ok tt (State (blocks s ++ [Block (str ++ [zero]) true])
                 (avail s - (n + 1)) (junk s)
                 (<[this := Obj (Vector.Vec (Ptr (length (blocks s)) 0) (n + 1) (n + 1))]>
                    (objs s))).
Proof.
  intros n Hmax Hav. unfold ctor. fold n.
  rewrite wrap_small by (unfold is_size_t; lia).
  rewrite (bind_ok _ _ _ _ _ (vector_resize_empty (n + 1) s ltac:(lia) Hav)).
  replace (Z.to_nat (n + 1)) with (S (length str)) by lia.
  set (a := length (blocks s)). set (s1 := State _ _ _ _).
  cbn [Vector.data Vector.v_begin ptr_add].
  assert (blocks s1 !! a
          = Some (Block (replicate (S (length str)) zero) true)) as Hnew.
  { subst s1. cbn [blocks]. by apply list_lookup_middle. }
  rewrite (bind_ok _ _ _ _ _ (copy_out_ok str a 0 _ s1 Hnew
             ltac:(rewrite length_replicate; lia))).
  set (s2 := set_blocks _ s1).
  assert (blocks s2 !! a = Some (Block (str ++ [zero]) true)) as Hstr.
  { subst s2; simpl. rewrite list_lookup_insert_eq
      by (by apply lookup_lt_Some in Hnew).
    do 2 f_equal. simpl.
    by replace (drop (length str) (zero :: replicate (length str) zero))
      with [zero] by (clear; induction str; simpl; auto). }
  replace (0 + n) with (Z.of_nat (length str)) by (fold n; lia).
  rewrite (bind_ok _ _ _ _ _ (store_ok a (length str) zero _ s2 Hstr
             ltac:(rewrite length_app; simpl; lia))).
  unfold set_obj, set_objs, set_blocks. subst s2 s1. simpl.
  f_equal. f_equal.
  rewrite !list_insert_insert_eq.
  rewrite (list_insert_id (str ++ [zero])) by (by apply list_lookup_middle).
  subst a. apply insert_last.
Qed.

Lemma string_wipe_self_owned this a bs s :
  owns s this a bs →
  wipe_self this s =
    Ok tt (set_blocks (<[a := Block (replicate (length bs) zero) true]> (blocks s)) s).
Proof.
  intros [Hobj Ha]. unfold wipe_self, bind, get_obj. rewrite Hobj. simpl.
  unfold secure_wipe, wipe_loop. rewrite Nat2Z.id. by apply fill_n_whole.
Qed.

Lemma string_wipe_self_hollow this s :
  hollow s this → wipe_self this s = Ok tt s.
Proof. intros Hobj. unfold wipe_self, bind, get_obj. by rewrite Hobj. Qed.

Lemma string_wipe_other_hollow other s :
  hollow s other → wipe_other other s = Ok tt s.
Proof.
  intros Hobj. unfold wipe_other, bind, get_obj, set_obj, set_objs.
  rewrite Hobj. simpl. rewrite Hobj. unfold Vector.clear. simpl.
  rewrite insert_id by done. by destruct s.
Qed.

Lemma string_move_ctor_ok this other o s :
  objs s !! other = Some o →
  move_ctor this other s =
    Ok tt (set_objs (<[this := o]> (<[other := Obj Vector.empty]> (objs s))) s).
Proof.
  intros Ho. unfold move_ctor, bind at 1, get_obj. rewrite Ho. simpl.
  unfold bind at 1, set_obj at 1. unfold bind at 1.
  rewrite string_wipe_other_hollow
    by (unfold hollow, set_objs; simpl; apply lookup_insert_eq).
  unfold set_obj, set_objs. simpl. by destruct o.
Qed.

Lemma string_take_from_owned this other a bs o s :
  this ≠ other →
  owns s this a bs → objs s !! other = Some o →
  take_from this other s =
    Ok tt (State (<[a := Block bs false]> (blocks s))
                 (avail s + Z.of_nat (length bs)) (junk s)
                 (<[other := Obj Vector.empty]> (<[this := o]> (objs s)))).
Proof.
  intros Hne [Hme Ha] Ho. unfold take_from, bind at 1, get_obj. rewrite Hme.
  unfold bind at 1. rewrite Ho.
  unfold bind at 1, Vector.move_assign, bind at 1, release. simpl.
  rewrite Ha. simpl. unfold bind at 1, set_obj at 1. unfold bind at 1, set_obj at 1.
  rewrite string_wipe_other_hollow; [by destruct o|].
  unfold hollow, set_objs. simpl. apply lookup_insert_eq.
Qed.

Lemma string_take_from_hollow this other o s :
  this ≠ other →
  hollow s this → objs s !! other = Some o →
  take_from this other s =
    Ok tt (set_objs (<[other := Obj Vector.empty]> (<[this := o]> (objs s))) s).
Proof.
  intros Hne Hme Ho. unfold take_from, bind at 1, get_obj. rewrite Hme.
  unfold bind at 1. rewrite Ho.
  unfold bind at 1, Vector.move_assign, bind at 1, release. simpl.
  unfold bind at 1, set_obj at 1. unfold bind at 1, set_obj at 1.
  rewrite string_wipe_other_hollow; [by destruct o|].
  unfold hollow, set_objs. simpl. apply lookup_insert_eq.
Qed.

Lemma string_drop_members_owned this a bs s :
  owns s this a bs →
  drop_members this s =
    Ok tt (State (<[a := Block bs false]> (blocks s))
                 (avail s + Z.of_nat (length bs)) (junk s)
                 (delete this (objs s))).
Proof.
  intros [Hobj Ha].
  unfold drop_members, bind, get_obj, Vector.dtor, release, del_obj.
  rewrite Hobj. simpl. by rewrite Ha.
Qed.

Lemma string_drop_members_hollow this s :
  hollow s this →
  drop_members this s = Ok tt (set_objs (delete this (objs s)) s).
Proof.
  intros Hobj. unfold drop_members, bind, get_obj. by rewrite Hobj.
Qed.

End StringFacts.

(** ** Whole operations *)

Section BufferOps.
Import SecureBuffer.
Implicit Types (s : state t) (bs : list byte) (a : addr) (this other : objid).

Lemma buffer_owns_wiped this a bs s :
  owns s this a bs →
  owns (set_blocks (<[a := Block (replicate (length bs) zero) true]> (blocks s)) s)
       this a (replicate (length bs) zero).
Proof.
  intros [Hobj Ha]. split; simpl.
  - by rewrite length_replicate.
  - apply list_lookup_insert_eq. by apply lookup_lt_Some in Ha.
Qed.

Lemma buffer_move_assign_owned this other a bs o s :
  this ≠ other → owns s this a bs → objs s !! other = Some o →
  move_assign this other s =
    Ok tt (State (<[a := Block (replicate (length bs) zero) true]> (blocks s))
                 (avail s) (junk s)
                 (<[other := Obj (Ptr a 0) (Z.of_nat (length bs))]>
                    (<[this := o]> (objs s)))).
Proof.
  intros Hne Hown Ho. unfold move_assign. rewrite decide_True by done.
  rewrite (bind_ok _ _ _ _ _ (buffer_wipe_self_owned _ _ _ _ Hown)). cbv beta.
  destruct Hown as [Hobj Ha].
  by rewrite (buffer_swap_members_ok this other _ o (set_blocks _ s) Hne Hobj Ho).
Qed.

Lemma buffer_move_assign_hollow this other o s :
  this ≠ other → hollow s this → objs s !! other = Some o →
  move_assign this other s =
    Ok tt (set_objs (<[other := Obj Null 0]> (<[this := o]> (objs s))) s).
Proof.
  intros Hne Hme Ho. unfold move_assign. rewrite decide_True by done.
  rewrite (bind_ok _ _ _ _ _ (buffer_wipe_self_hollow _ _ Hme)). cbv beta.
  by rewrite (buffer_swap_members_ok this other _ o _ Hne Hme Ho).
Qed.

Lemma buffer_dtor_owned this a bs s :
  owns s this a bs →
  dtor this s =
    Ok tt (State (<[a := Block (replicate (length bs) zero) false]> (blocks s))
                 (avail s + Z.of_nat (length bs)) (junk s)
                 (delete this (objs s))).
Proof.
  intros Hown. unfold dtor.
  rewrite (bind_ok _ _ _ _ _ (buffer_wipe_self_owned _ _ _ _ Hown)). cbv beta.
  destruct (buffer_owns_wiped _ _ _ _ Hown) as [Hobj Ha].
  rewrite (buffer_drop_members_owned _ _ _ _ _ Hobj Ha). simpl.
  by rewrite list_insert_insert_eq, length_replicate.
Qed.

Lemma buffer_dtor_hollow this s :
  hollow s this → dtor this s = Ok tt (set_objs (delete this (objs s)) s).
Proof.
  intros Hme. unfold dtor.
  rewrite (bind_ok _ _ _ _ _ (buffer_wipe_self_hollow _ _ Hme)). cbv beta.
  by apply buffer_drop_members_hollow.
Qed.

Lemma buffer_left_empty a s :
  hollow s a → Container.left_empty Container.Buf s a.
Proof.
  intros Ha. repeat split; simpl.
  - done.
  - unfold size_bytes, bind, get_obj. by rewrite Ha.
  - unfold data_ptr, bind, get_obj. by rewrite Ha.
  - by apply buffer_dtor_hollow.
  - intros c Hc. rewrite (buffer_move_ctor_ok c a _ s Ha).
    by rewrite (insert_id (objs s) a) by done.
Qed.

End BufferOps.

Section StringOps.
Import SecureString.
Implicit Types (s : state t) (bs : list byte) (a : addr) (this other : objid).

Lemma string_owns_wiped this a bs s :
  owns s this a bs →
  owns (set_blocks (<[a := Block (replicate (length bs) zero) true]> (blocks s)) s)
       this a (replicate (length bs) zero).
Proof.
  intros [Hobj Ha]. split; simpl.
  - by rewrite length_replicate.
  - apply list_lookup_insert_eq. by apply lookup_lt_Some in Ha.
Qed.

Lemma string_move_assign_owned this other a bs o s :
  this ≠ other → owns s this a bs → objs s !! other = Some o →
  move_assign this other s =
    Ok tt (State (<[a := Block (replicate (length bs) zero) false]> (blocks s))
                 (avail s + Z.of_nat (length bs)) (junk s)
                 (<[other := Obj Vector.empty]> (<[this := o]> (objs s)))).
Proof.
  intros Hne Hown Ho. unfold move_assign. rewrite decide_True by done.
  rewrite (bind_ok _ _ _ _ _ (string_wipe_self_owned _ _ _ _ Hown)). cbv beta.
  rewrite (string_take_from_owned this other a _ o _ Hne
             (string_owns_wiped _ _ _ _ Hown) Ho). simpl.
  by rewrite list_insert_insert_eq, length_replicate.
Qed.

Lemma string_move_assign_hollow this other o s :
  this ≠ other → hollow s this → objs s !! other = Some o →
  move_assign this other s =
    Ok tt (set_objs (<[other := Obj Vector.empty]> (<[this := o]> (objs s))) s).
Proof.
  intros Hne Hme Ho. unfold move_assign. rewrite decide_True by done.
  rewrite (bind_ok _ _ _ _ _ (string_wipe_self_hollow _ _ Hme)). cbv beta.
  by apply string_take_from_hollow.
Qed.

Lemma string_dtor_owned this a bs s :
  owns s this a bs →
  dtor this s =
    Ok tt (State (<[a := Block (replicate (length bs) zero) false]> (blocks s))
                 (avail s + Z.of_nat (length bs)) (junk s)
                 (delete this (objs s))).
Proof.
  intros Hown. unfold dtor.
  rewrite (bind_ok _ _ _ _ _ (string_wipe_self_owned _ _ _ _ Hown)). cbv beta.
  rewrite (string_drop_members_owned _ _ _ _ (string_owns_wiped _ _ _ _ Hown)).
  simpl. by rewrite list_insert_insert_eq, length_replicate.
Qed.

Lemma string_dtor_hollow this s :
  hollow s this → dtor this s = Ok tt (set_objs (delete this (objs s)) s).
Proof.
  intros Hme. unfold dtor.
  rewrite (bind_ok _ _ _ _ _ (string_wipe_self_hollow _ _ Hme)). cbv beta.
  by apply string_drop_members_hollow.
Qed.

Lemma string_left_empty a s :
  hollow s a → Container.left_empty Container.Str s a.
Proof.
  intros Ha. repeat split; simpl.
  - done.
  - unfold size, bind, get_obj. by rewrite Ha.
  - unfold c_str, bind, get_obj. by rewrite Ha.
  - by apply string_dtor_hollow.
  - intros c Hc. rewrite (string_move_ctor_ok c a _ s Ha).
    by rewrite (insert_id (objs s) a) by done.
Qed.

End StringOps.

(** ** The scenarios of the specification, run *)

Section Scenarios.
Local Open Scope nat_scope.

(** [SecureBuffer(16)]: sixteen bytes, all zero, whatever the fresh memory
    held. *)
Example scenario_buffer_16 :
  ∃ s, SecureBuffer.ctor 1 16%Z (init 64 xaa) = Ok tt s ∧
       SecureBuffer.size_bytes 1 s = Ok 16%Z s ∧
       blocks s = [Block (replicate 16 zero) true].
Proof. eexists. split; [vm_compute; reflexivity|]. by split. Qed.

(** [SecureString("secret")]: size 6, the text and a terminator. *)
Example scenario_string_secret :
  ∃ s, SecureString.ctor 1 secret (init 64 xaa) = Ok tt s ∧
       SecureString.size 1 s = Ok 6%Z s ∧
       SecureString.c_str 1 s = Ok (Ptr 0 0) s ∧
       blocks s = [Block (secret ++ [zero]) true].
Proof. eexists. split; [vm_compute; reflexivity|]. by repeat split. Qed.

(** [a = SecureString("secret"); b = std::move(a)]: [b] has the text, [a]
    reports 0. *)
Example scenario_string_move :
  ∃ s, (SecureString.ctor 1 secret ;; SecureString.move_ctor 2 1)%m
         (init 64 xaa) = Ok tt s ∧
       SecureString.size 2 s = Ok 6%Z s ∧
       SecureString.c_str 2 s = Ok (Ptr 0 0) s ∧
       SecureString.size 1 s = Ok 0%Z s ∧
       blocks s = [Block (secret ++ [zero]) true].
Proof. eexists. split; [vm_compute; reflexivity|]. by repeat split. Qed.

(** [SecureString("")]: size 0, one zero byte of storage. *)
Example scenario_string_empty :
  ∃ s, SecureString.ctor 1 [] (init 64 xaa) = Ok tt s ∧
       SecureString.size 1 s = Ok 0%Z s ∧
       blocks s = [Block [zero] true].
Proof. eexists. split; [vm_compute; reflexivity|]. by split. Qed.

(** A buffer is filled by its client and destroyed: the block is returned
    with every byte zero. *)
Example scenario_buffer_lifetime :
  ∃ s, (SecureBuffer.ctor 1 2%Z ;; SecureBuffer.poke 1 0%Z x6b ;;
        SecureBuffer.poke 1 1%Z x65 ;; SecureBuffer.dtor 1)%m
         (init 64 xaa) = Ok tt s ∧
       blocks s = [Block [zero; zero] false] ∧
       objs s = ∅.
Proof. eexists. split; [vm_compute; reflexivity|]. by split. Qed.

(** A string is assigned over another: the overwritten text is zeroed and
    returned, the assigned text arrives intact, the source is empty. *)
Example scenario_string_assign :
  ∃ s, (SecureString.ctor 1 [x6b] ;; SecureString.ctor 2 secret ;;
        SecureString.move_assign 1 2)%m (init 64 xaa) = Ok tt s ∧
       blocks s = [Block [zero; zero] false; Block (secret ++ [zero]) true] ∧
       SecureString.size 1 s = Ok 6%Z s ∧
       SecureString.size 2 s = Ok 0%Z s.
Proof. eexists. split; [vm_compute; reflexivity|]. by repeat split. Qed.

(** No memory: the constructor throws and nothing has changed. *)
Example scenario_buffer_no_memory :
  SecureBuffer.ctor 1 16%Z (init 8 xaa) = Throw bad_alloc (init 8 xaa).
Proof. reflexivity. Qed.

End Scenarios.

(** ** Construction *)

(** C4. For every size [n], constructing [SecureBuffer(n)] on a machine that
    can still supply [n] bytes yields an object whose [size_bytes()] is [n]
    and whose [n] bytes, read through [data_ptr()], are all zero. *)
Theorem buffer_ctor_zero_init (this : objid) (n : Z) (s : state SecureBuffer.t) :
  is_size_t n → n ≤ avail s →
  ∃ s' a,
    SecureBuffer.ctor this n s = Ok tt s' ∧
    SecureBuffer.size_bytes this s' = Ok n s' ∧
    SecureBuffer.data_ptr this s' = Ok (Ptr a 0) s' ∧
    blocks s' !! a = Some (Block (replicate (Z.to_nat n) zero) true) ∧
    ∀ i, 0 ≤ i < n → load (ptr_add (Ptr a 0) i) s' = Ok zero s'.
Proof.
  intros [H0 _] Hn. eexists _, (length (blocks s)).
  split; [by apply buffer_ctor_ok|].
  split; [|split; [|split]].
  - unfold SecureBuffer.size_bytes, bind, get_obj. simpl.
    by rewrite lookup_insert_eq.
  - unfold SecureBuffer.data_ptr, bind, get_obj. simpl.
    by rewrite lookup_insert_eq.
  - simpl. by apply list_lookup_middle.
  - intros i Hi. unfold ptr_add.
    replace (0 + i) with (Z.of_nat (Z.to_nat i)) by lia.
    eapply load_ok.
    + simpl. by apply list_lookup_middle.
    + apply lookup_replicate_2. lia.
Qed.

Lemma buffer_ctor_zero_init_witness :
  is_size_t 16 ∧ 16 ≤ avail (init (T := SecureBuffer.t) 64 xaa) ∧
  ∃ s' a,
    SecureBuffer.ctor 1%nat 16 (init (T := SecureBuffer.t) 64 xaa) = Ok tt s' ∧
    SecureBuffer.size_bytes 1%nat s' = Ok 16 s' ∧
    SecureBuffer.data_ptr 1%nat s' = Ok (Ptr a 0) s' ∧
    blocks s' !! a = Some (Block (replicate 16 zero) true) ∧
    ∀ i, 0 ≤ i < 16 → load (ptr_add (Ptr a 0) i) s' = Ok zero s'.
Proof.
  assert (is_size_t 16) as H1 by (by vm_compute).
  assert (16 ≤ avail (init (T := SecureBuffer.t) 64 xaa)) as H2 by (simpl; lia).
  split; [exact H1|]. split; [exact H2|].
  exact (buffer_ctor_zero_init 1%nat 16 (init (T := SecureBuffer.t) 64 xaa) H1 H2).
Defined.

(** C8. Constructing a [SecureBuffer] has exactly two outcomes. Either the
    allocator can supply the bytes, and the object exists with a zeroed
    array of the requested size; or it cannot, and [std::bad_alloc] leaves
    the machine exactly as it was: no object, no block. No other failure,
    and in particular no undefined behaviour, is possible. *)
Theorem buffer_ctor_all_or_nothing (this : objid) (n : Z) (s : state SecureBuffer.t) :
  is_size_t n →
  (n ≤ avail s ∧
   SecureBuffer.ctor this n s =
     Ok tt (State (blocks s ++ [Block (replicate (Z.to_nat n) zero) true])
                  (avail s - n) (junk s)
                  (<[this := SecureBuffer.Obj (Ptr (length (blocks s)) 0) n]> (objs s))))
  ∨
  (avail s < n ∧ SecureBuffer.ctor this n s = Throw bad_alloc s).
Proof.
  intros [H0 _]. destruct (decide (n ≤ avail s)) as [Hn|Hn].
  - left. split; [done|]. by apply buffer_ctor_ok.
  - right. split; [lia|]. apply buffer_ctor_fails. lia.
Qed.

Lemma buffer_ctor_all_or_nothing_witness :
  is_size_t 16 ∧
  ((16 ≤ avail (init (T := SecureBuffer.t) 8 xaa) ∧
    SecureBuffer.ctor 1%nat 16 (init (T := SecureBuffer.t) 8 xaa) =
      Ok tt (State (blocks (init (T := SecureBuffer.t) 8 xaa) ++ [Block (replicate (Z.to_nat 16) zero) true])
                   (avail (init (T := SecureBuffer.t) 8 xaa) - 16) (junk (init (T := SecureBuffer.t) 8 xaa))
                   (<[1%nat := SecureBuffer.Obj (Ptr (length (blocks (init (T := SecureBuffer.t) 8 xaa))) 0) 16]>
                      (objs (init (T := SecureBuffer.t) 8 xaa)))))
   ∨
   (avail (init (T := SecureBuffer.t) 8 xaa) < 16 ∧
    SecureBuffer.ctor 1%nat 16 (init (T := SecureBuffer.t) 8 xaa) = Throw bad_alloc (init (T := SecureBuffer.t) 8 xaa))).
Proof.
  assert (is_size_t 16) as H1 by (by vm_compute).
  split; [exact H1|].
  exact (buffer_ctor_all_or_nothing 1%nat 16 (init (T := SecureBuffer.t) 8 xaa) H1).
Defined.

(** C3. For every byte sequence [str] (shorter than [SIZE_MAX], as every
    [std::string] is) and a machine that can supply [length str + 1] bytes,
    [SecureString(str)] yields an object whose [c_str()] points to storage
    holding exactly the bytes of [str] followed by one zero, and whose
    [size()] is the length of [str]. For the empty string the storage is the
    single terminator and [size()] is 0. *)
Theorem string_ctor_round_trip (this : objid) (str : list byte) (s : state SecureString.t) :
  Z.of_nat (length str) < SIZE_MAX →
  Z.of_nat (length str) + 1 ≤ avail s →
  ∃ s' a,
    SecureString.ctor this str s = Ok tt s' ∧
    SecureString.c_str this s' = Ok (Ptr a 0) s' ∧
    blocks s' !! a = Some (Block (str ++ [zero]) true) ∧
    (∀ (i : nat) b, (str ++ [zero]) !! i = Some b →
       load (ptr_add (Ptr a 0) (Z.of_nat i)) s' = Ok b s') ∧
    SecureString.size this s' = Ok (Z.of_nat (length str)) s' ∧
    (str = [] →
       blocks s' !! a = Some (Block [zero] true) ∧
       SecureString.size this s' = Ok 0 s').
Proof.
  intros Hmax Hav. eexists _, (length (blocks s)).
  split; [by apply string_ctor_ok|].
  assert (SecureString.size this
            (State (blocks s ++ [Block (str ++ [zero]) true])
               (avail s - (Z.of_nat (length str) + 1)) (junk s)
               (<[this := SecureString.Obj
                    (Vector.Vec (Ptr (length (blocks s)) 0)
                       (Z.of_nat (length str) + 1) (Z.of_nat (length str) + 1))]>
                  (objs s)))
          = Ok (Z.of_nat (length str))
              (State (blocks s ++ [Block (str ++ [zero]) true])
               (avail s - (Z.of_nat (length str) + 1)) (junk s)
               (<[this := SecureString.Obj
                    (Vector.Vec (Ptr (length (blocks s)) 0)
                       (Z.of_nat (length str) + 1) (Z.of_nat (length str) + 1))]>
                  (objs s)))) as Hsize.
  { unfold SecureString.size, bind, get_obj. simpl.
    rewrite lookup_insert_eq. simpl.
    destruct (Z.eqb_spec (Z.of_nat (length str) + 1) 0) as [?|_]; [lia|].
    unfold ret. do 2 f_equal.
    replace (Z.of_nat (length str) + 1 - 1) with (Z.of_nat (length str)) by lia.
    apply wrap_small. unfold is_size_t. lia. }
  split; [|split; [|split; [|split]]].
  - unfold SecureString.c_str, bind, get_obj. simpl.
    by rewrite lookup_insert_eq.
  - simpl. by apply list_lookup_middle.
  - intros i b Hb. unfold ptr_add.
    replace (0 + Z.of_nat i) with (Z.of_nat i) by lia.
    eapply load_ok; [|exact Hb]. simpl. by apply list_lookup_middle.
  - exact Hsize.
  - intros ->. split.
    + simpl. by apply list_lookup_middle.
    + exact Hsize.
Qed.

Lemma string_ctor_round_trip_witness :
  let str := [x73; x65; x63; x72; x65; x74] in
  Z.of_nat (length str) < SIZE_MAX ∧
  Z.of_nat (length str) + 1 ≤ avail (init (T := SecureString.t) 64 xaa) ∧
  ∃ s' a,
    SecureString.ctor 1%nat str (init 64 xaa) = Ok tt s' ∧
    SecureString.c_str 1%nat s' = Ok (Ptr a 0) s' ∧
    blocks s' !! a = Some (Block (str ++ [zero]) true) ∧
    (∀ (i : nat) b, (str ++ [zero]) !! i = Some b →
       load (ptr_add (Ptr a 0) (Z.of_nat i)) s' = Ok b s') ∧
    SecureString.size 1%nat s' = Ok (Z.of_nat (length str)) s' ∧
    (str = [] →
       blocks s' !! a = Some (Block [zero] true) ∧
       SecureString.size 1%nat s' = Ok 0 s').
Proof.
  intros str.
  assert (Z.of_nat (length str) < SIZE_MAX) as H1 by (by vm_compute).
  assert (Z.of_nat (length str) + 1 ≤ avail (init (T := SecureString.t) 64 xaa))
    as H2 by (by vm_compute).
  split; [exact H1|]. split; [exact H2|].
  exact (string_ctor_round_trip 1%nat str (init 64 xaa) H1 H2).
Defined.

(** ** Accessors *)

(** C6. [size()] of a [SecureString] whose vector has [n] elements, [n] any
    [size_t] value, is [n - 1] when [n] is not zero and 0 when it is; the
    subtraction never wraps and the result is never negative. *)
Theorem string_size_no_underflow (this : objid) (v : Vector.t) (s : state SecureString.t) :
  objs s !! this = Some (SecureString.Obj v) →
  is_size_t (Vector.size v) →
  ∃ r, SecureString.size this s = Ok r s ∧
       (Vector.size v ≠ 0 → r = Vector.size v - 1) ∧
       (Vector.size v = 0 → r = 0) ∧
       0 ≤ r ≤ Vector.size v.
Proof.
  intros Hobj Hv. unfold SecureString.size, bind, get_obj. rewrite Hobj. simpl.
  pose proof Hv as [H0 Hmax].
  destruct (Z.eqb_spec (Vector.size v) 0) as [E|E].
  - exists 0. repeat split; (done || lia).
  - exists (Vector.size v - 1).
    rewrite wrap_small by (unfold is_size_t in *; lia).
    repeat split; (done || lia).
Qed.

Lemma string_size_no_underflow_witness :
  let s : state SecureString.t :=
    State [] 0 xaa (<[1%nat := SecureString.Obj Vector.empty]> ∅) in
  objs s !! 1%nat = Some (SecureString.Obj Vector.empty) ∧
  is_size_t (Vector.size Vector.empty) ∧
  ∃ r, SecureString.size 1%nat s = Ok r s ∧
       (Vector.size Vector.empty ≠ 0 → r = Vector.size Vector.empty - 1) ∧
       (Vector.size Vector.empty = 0 → r = 0) ∧
       0 ≤ r ≤ Vector.size Vector.empty.
Proof.
  intros s.
  assert (objs s !! 1%nat = Some (SecureString.Obj Vector.empty)) as H1
    by reflexivity.
  assert (is_size_t (Vector.size Vector.empty)) as H2 by (by vm_compute).
  split; [exact H1|]. split; [exact H2|].
  exact (string_size_no_underflow 1%nat Vector.empty s H1 H2).
Defined.

(** ** The wipe primitive *)

(** The two primitives taken by themselves, at arguments of their type.
    [SecureBuffer::secure_wipe] returns at once, touching nothing, for a
    null pointer and for a length of 0. [SecureString::secure_wipe] touches
    nothing for a length of 0; it has no test for a null pointer, and with a
    null pointer and the length 1, which no member function passes to it, it
    would write through the null pointer. *)
Theorem secure_wipe_null_guard :
  (∀ len (s : state SecureBuffer.t), SecureBuffer.secure_wipe Null len s = Ok tt s) ∧
  (∀ p (s : state SecureBuffer.t), SecureBuffer.secure_wipe p 0 s = Ok tt s) ∧
  (∀ p (s : state SecureString.t), SecureString.secure_wipe p 0 s = Ok tt s) ∧
  (∀ s : state SecureString.t, SecureString.secure_wipe Null 1 s = Fault NullDeref).
Proof.
  split; [|split; [|split]].
  - intros len s. reflexivity.
  - intros p s. unfold SecureBuffer.secure_wipe. simpl.
    by rewrite orb_true_r.
  - intros p s. reflexivity.
  - intros s. reflexivity.
Qed.

(** ** Moves *)

(** C7. Move-assigning a container to itself returns with the machine
    exactly as it was: every object and every byte of every block is
    unchanged, nothing is wiped and nothing is released. *)
Theorem self_move_assign_is_noop (k : Container.kind) (a : objid)
    (s : state (Container.obj k)) :
  Container.move_assign k a a s = Ok tt s.
Proof.
  destruct k; simpl.
  - unfold SecureBuffer.move_assign. by rewrite decide_False by (by intros ?).
  - unfold SecureString.move_assign. by rewrite decide_False by (by intros ?).
Qed.

(** C10. After a [SecureString] [a] has been moved from, by move
    construction or by move assignment into an object that holds storage or
    holds none, [c_str()] of [a] is the null pointer, reading through it is
    undefined behaviour, and [size()] of [a] is 0. *)
Theorem moved_from_c_str_is_null (a b : objid) (o : SecureString.t)
    (s : state SecureString.t) :
  b ≠ a → objs s !! a = Some o →
  (∃ s', SecureString.move_ctor b a s = Ok tt s' ∧
         SecureString.c_str a s' = Ok Null s' ∧
         load Null s' = Fault NullDeref ∧
         SecureString.size a s' = Ok 0 s') ∧
  (SecureString.hollow s b ∨ (∃ x bs, SecureString.owns s b x bs) →
   ∃ s', SecureString.move_assign b a s = Ok tt s' ∧
         SecureString.c_str a s' = Ok Null s' ∧
         load Null s' = Fault NullDeref ∧
         SecureString.size a s' = Ok 0 s').
Proof.
  intros Hne Ho.
  assert (∀ s' : state SecureString.t, SecureString.hollow s' a →
            SecureString.c_str a s' = Ok Null s' ∧
            load Null s' = Fault NullDeref ∧
            SecureString.size a s' = Ok 0 s') as Hempty.
  { intros s' Ha. destruct (string_left_empty a s' Ha) as (_ & ? & ? & _).
    by repeat split. }
  split.
  - eexists. split; [by apply string_move_ctor_ok|].
    apply Hempty. unfold SecureString.hollow. simpl.
    rewrite lookup_insert_ne by done. apply lookup_insert_eq.
  - intros [Hb|(x & bs & Hb)].
    + eexists. split; [by apply string_move_assign_hollow|].
      apply Hempty. unfold SecureString.hollow. simpl. apply lookup_insert_eq.
    + eexists. split; [by eapply string_move_assign_owned|].
      apply Hempty. unfold SecureString.hollow. simpl. apply lookup_insert_eq.
Qed.

Lemma moved_from_c_str_is_null_witness :
  let s : state SecureString.t :=
    State [Block [x6b; x00] true] 0 xaa
          (<[1%nat := SecureString.Obj (Vector.Vec (Ptr 0%nat 0) 2 2)]> ∅) in
  2%nat ≠ 1%nat ∧
  objs s !! 1%nat = Some (SecureString.Obj (Vector.Vec (Ptr 0%nat 0) 2 2)) ∧
  (∃ s', SecureString.move_ctor 2%nat 1%nat s = Ok tt s' ∧
         SecureString.c_str 1%nat s' = Ok Null s' ∧
         load Null s' = Fault NullDeref ∧
         SecureString.size 1%nat s' = Ok 0 s') ∧
  (SecureString.hollow s 2%nat ∨ (∃ x bs, SecureString.owns s 2%nat x bs) →
   ∃ s', SecureString.move_assign 2%nat 1%nat s = Ok tt s' ∧
         SecureString.c_str 1%nat s' = Ok Null s' ∧
         load Null s' = Fault NullDeref ∧
         SecureString.size 1%nat s' = Ok 0 s').
Proof.
  intros s.
  assert (2%nat ≠ 1%nat) as H1 by lia.
  assert (objs s !! 1%nat = Some (SecureString.Obj (Vector.Vec (Ptr 0%nat 0) 2 2)))
    as H2 by reflexivity.
  split; [exact H1|]. split; [exact H2|].
  exact (moved_from_c_str_is_null 1%nat 2%nat _ s H1 H2).
Defined.

(** C1, as the code has it. A container [this] that holds storage [a] wipes
    it before it lets go of it in an assignment or in its destruction:
    - in [operator=] from any other object, the wipe leaves every byte of
      [a] zero while [this] still holds it; only then is [a] passed to the
      source, which now holds it (buffer), or returned to the allocator,
      the source being left empty (string);
    - in the destructor, whether or not any other object exists, the wipe
      leaves every byte of [a] zero while the block is still allocated; only
      then is it returned.
    A move construction from [this], in contrast, passes [a] on with its
    bytes as they are, and wipes nothing. *)
Theorem wipe_precedes_release (k : Container.kind) (this : objid)
    (a : addr) (bs : list byte) (s : state (Container.obj k)) :
  Container.owns k s this a bs →
  let zeros := replicate (length bs) zero in
  (∀ other o, this ≠ other → objs s !! other = Some o →
   ∃ s1 s',
     Container.wipe_self k this s = Ok tt s1 ∧
     objs s1 = objs s ∧
     blocks s1 !! a = Some (Block zeros true) ∧
     Container.hand_over k this other s1 = Ok tt s' ∧
     Container.move_assign k this other s = Ok tt s' ∧
     blocks s' !! a = Some (Block zeros (Container.live_after_assign k)) ∧
     objs s' !! this = Some o ∧
     Container.source_after_assign k s' other a (length bs)) ∧
  (∃ s1 s',
     Container.wipe_self k this s = Ok tt s1 ∧
     objs s1 = objs s ∧
     blocks s1 !! a = Some (Block zeros true) ∧
     Container.drop_members k this s1 = Ok tt s' ∧
     Container.dtor k this s = Ok tt s' ∧
     blocks s' !! a = Some (Block zeros false) ∧
     objs s' !! this = None) ∧
  (∀ into, into ≠ this →
   ∃ s',
     Container.move_ctor k into this s = Ok tt s' ∧
     blocks s' = blocks s ∧
     Container.owns k s' into a bs ∧
     Container.hollow k s' this).
Proof.
  intros Hown zeros.
  assert (a < length (blocks s))%nat as Hlt.
  { destruct k; destruct Hown as [_ Ha]; by apply lookup_lt_Some in Ha. }
  destruct k; simpl in *.
  - pose proof (buffer_wipe_self_owned _ _ _ _ Hown) as Hwipe.
    pose proof (buffer_owns_wiped _ _ _ _ Hown) as [Hobj1 Ha1].
    split; [|split].
    + intros other o Hne Ho.
      eexists _, _. split; [exact Hwipe|]. split; [done|].
      split; [exact Ha1|]. split.
      * eapply buffer_swap_members_ok; [exact Hne | exact Hobj1 | exact Ho].
      * split; [|split; [|split]].
        -- rewrite (buffer_move_assign_owned _ _ _ _ _ _ Hne Hown Ho).
           unfold set_objs, set_blocks. simpl. by rewrite length_replicate.
        -- simpl. by apply list_lookup_insert_eq.
        -- simpl. rewrite lookup_insert_ne by done. apply lookup_insert_eq.
        -- split; simpl.
           ++ apply lookup_insert_eq.
           ++ by apply list_lookup_insert_eq.
    + eexists _, _. split; [exact Hwipe|]. split; [done|].
      split; [exact Ha1|]. split.
      * eapply buffer_drop_members_owned; [exact Hobj1 | exact Ha1].
      * split; [|split].
        -- rewrite (buffer_dtor_owned _ _ _ _ Hown). simpl.
           by rewrite list_insert_insert_eq, length_replicate.
        -- simpl. apply list_lookup_insert_eq. by rewrite length_insert.
        -- simpl. apply lookup_delete_eq.
    + intros into Hinto. destruct Hown as [Hobj Ha].
      eexists. split; [exact (buffer_move_ctor_ok into this _ s Hobj)|].
      split; [done|]. split; [split|]; simpl.
      * apply lookup_insert_eq.
      * done.
      * unfold SecureBuffer.hollow. simpl.
        rewrite lookup_insert_ne by done. apply lookup_insert_eq.
  - pose proof (string_wipe_self_owned _ _ _ _ Hown) as Hwipe.
    pose proof (string_owns_wiped _ _ _ _ Hown) as Hown1.
    pose proof Hown1 as [Hobj1 Ha1].
    split; [|split].
    + intros other o Hne Ho.
      eexists _, _. split; [exact Hwipe|]. split; [done|].
      split; [exact Ha1|]. split.
      * eapply string_take_from_owned; [exact Hne | exact Hown1 | exact Ho].
      * split; [|split; [|split]].
        -- rewrite (string_move_assign_owned _ _ _ _ _ _ Hne Hown Ho). simpl.
           by rewrite list_insert_insert_eq, length_replicate.
        -- simpl. apply list_lookup_insert_eq. by rewrite length_insert.
        -- simpl. rewrite lookup_insert_ne by done. apply lookup_insert_eq.
        -- apply string_left_empty. unfold SecureString.hollow. simpl.
           apply lookup_insert_eq.
    + eexists _, _. split; [exact Hwipe|]. split; [done|].
      split; [exact Ha1|]. split.
      * eapply string_drop_members_owned; exact Hown1.
      * split; [|split].
        -- rewrite (string_dtor_owned _ _ _ _ Hown). simpl.
           by rewrite list_insert_insert_eq, length_replicate.
        -- simpl. apply list_lookup_insert_eq. by rewrite length_insert.
        -- simpl. apply lookup_delete_eq.
    + intros into Hinto. destruct Hown as [Hobj Ha].
      eexists. split; [exact (string_move_ctor_ok into this _ s Hobj)|].
      split; [done|]. split; [split|]; simpl.
      * apply lookup_insert_eq.
      * done.
      * unfold SecureString.hollow. simpl.
        rewrite lookup_insert_ne by done. apply lookup_insert_eq.
Qed.

(** The theorem at a machine with a single container, a buffer of three
    bytes its client has written. *)
Lemma wipe_precedes_release_witness :
  let k := Container.Buf in
  let bs := [x6b; x65; x79] in
  let s : state (Container.obj k) :=
    State [Block bs true] 0 xaa
          (<[1%nat := SecureBuffer.Obj (Ptr 0%nat 0) 3]> ∅) in
  let zeros := replicate (length bs) zero in
  Container.owns k s 1%nat 0%nat bs ∧
  (∀ other o, 1%nat ≠ other → objs s !! other = Some o →
   ∃ s1 s',
     Container.wipe_self k 1%nat s = Ok tt s1 ∧
     objs s1 = objs s ∧
     blocks s1 !! 0%nat = Some (Block zeros true) ∧
     Container.hand_over k 1%nat other s1 = Ok tt s' ∧
     Container.move_assign k 1%nat other s = Ok tt s' ∧
     blocks s' !! 0%nat = Some (Block zeros (Container.live_after_assign k)) ∧
     objs s' !! 1%nat = Some o ∧
     Container.source_after_assign k s' other 0%nat (length bs)) ∧
  (∃ s1 s',
     Container.wipe_self k 1%nat s = Ok tt s1 ∧
     objs s1 = objs s ∧
     blocks s1 !! 0%nat = Some (Block zeros true) ∧
     Container.drop_members k 1%nat s1 = Ok tt s' ∧
     Container.dtor k 1%nat s = Ok tt s' ∧
     blocks s' !! 0%nat = Some (Block zeros false) ∧
     objs s' !! 1%nat = None) ∧
  (∀ into, into ≠ 1%nat →
   ∃ s',
     Container.move_ctor k into 1%nat s = Ok tt s' ∧
     blocks s' = blocks s ∧
     Container.owns k s' into 0%nat bs ∧
     Container.hollow k s' 1%nat).
Proof.
  intros k bs s zeros.
  assert (Container.owns k s 1%nat 0%nat bs) as H1 by (split; reflexivity).
  split; [exact H1|].
  exact (wipe_precedes_release k 1%nat 0%nat bs s H1).
Defined.

(** C1, as stated, fails for storage that is moved from: a [SecureString]
    built from the one-byte text [k] and then moved from into a new object
    has given its storage away, and that storage still holds [k] and the
    terminator; no byte of it has been set to zero. *)
Lemma moved_from_storage_not_wiped :
  ∃ (s s' : state SecureString.t) (a : addr),
    SecureString.ctor 1%nat [x6b] (init 16 xaa) = Ok tt s ∧
    SecureString.owns s 1%nat a [x6b; x00] ∧
    SecureString.move_ctor 2%nat 1%nat s = Ok tt s' ∧
    SecureString.hollow s' 1%nat ∧
    blocks s' !! a = Some (Block [x6b; x00] true) ∧
    ¬ all_zero [x6b; x00].
Proof.
  eexists _, _, 0%nat.
  split; [vm_compute; reflexivity|].
  split; [split; reflexivity|].
  split; [vm_compute; reflexivity|].
  split; [reflexivity|].
  split; [reflexivity|].
  intros H. apply Forall_cons_1 in H as [H _]. discriminate H.
Qed.

(** C2, as the code has it. Let [a] be any constructed container and [b]
    another object.
    - After [b] is move-constructed from [a], [a] is empty: size 0, null
      storage, and destroying it or move-constructing from it again changes
      no block.
    - After [b = std::move(a)] where [b] held nothing, [a] is empty in the
      same sense.
    - After [b = std::move(a)] where [b] held the block [x]: a string [a]
      is empty in the same sense; a buffer [a] has been swapped with [b]
      and now holds [x], wiped, and reports its length.
    In every case [b] ends up with what [a] had. *)
Theorem moved_from_state (k : Container.kind) (a b : objid)
    (o : Container.obj k) (s : state (Container.obj k)) :
  b ≠ a →
  objs s !! a = Some o →
  (∃ s', Container.move_ctor k b a s = Ok tt s' ∧
         Container.left_empty k s' a ∧
         objs s' !! b = Some o) ∧
  (Container.hollow k s b →
   ∃ s', Container.move_assign k b a s = Ok tt s' ∧
         Container.left_empty k s' a ∧
         objs s' !! b = Some o) ∧
  (∀ x bs, Container.owns k s b x bs →
   ∃ s', Container.move_assign k b a s = Ok tt s' ∧
         Container.source_after_assign k s' a x (length bs) ∧
         objs s' !! b = Some o).
Proof.
  intros Hne Ho. destruct k; simpl in *.
  - split; [|split].
    + eexists. split; [exact (buffer_move_ctor_ok b a o s Ho)|]. split.
      * apply buffer_left_empty. unfold SecureBuffer.hollow. simpl.
        rewrite lookup_insert_ne by done. apply lookup_insert_eq.
      * simpl. apply lookup_insert_eq.
    + intros Hb. eexists.
      split; [exact (buffer_move_assign_hollow b a o s Hne Hb Ho)|]. split.
      * apply buffer_left_empty. unfold SecureBuffer.hollow. simpl.
        apply lookup_insert_eq.
      * simpl. rewrite lookup_insert_ne by done. apply lookup_insert_eq.
    + intros x bs Hb. eexists.
      split; [exact (buffer_move_assign_owned b a x bs o s Hne Hb Ho)|]. split.
      * destruct Hb as [_ Hx]. split; simpl.
        -- rewrite length_replicate. apply lookup_insert_eq.
        -- apply list_lookup_insert_eq. by apply lookup_lt_Some in Hx.
      * simpl. rewrite lookup_insert_ne by done. apply lookup_insert_eq.
  - split; [|split].
    + eexists. split; [exact (string_move_ctor_ok b a o s Ho)|]. split.
      * apply string_left_empty. unfold SecureString.hollow. simpl.
        rewrite lookup_insert_ne by done. apply lookup_insert_eq.
      * simpl. apply lookup_insert_eq.
    + intros Hb. eexists.
      split; [exact (string_move_assign_hollow b a o s Hne Hb Ho)|]. split.
      * apply string_left_empty. unfold SecureString.hollow. simpl.
        apply lookup_insert_eq.
      * simpl. rewrite lookup_insert_ne by done. apply lookup_insert_eq.
    + intros x bs Hb. eexists.
      split; [exact (string_move_assign_owned b a x bs o s Hne Hb Ho)|]. split.
      * apply string_left_empty. unfold SecureString.hollow. simpl.
        apply lookup_insert_eq.
      * simpl. rewrite lookup_insert_ne by done. apply lookup_insert_eq.
Qed.

Lemma moved_from_state_witness :
  let k := Container.Buf in
  let o := SecureBuffer.Obj (Ptr 1%nat 0) 2 in
  let s : state (Container.obj k) :=
    State [Block [x6b] true; Block [x65; x79] true] 0 xaa
          (<[1%nat := SecureBuffer.Obj (Ptr 0%nat 0) 1]> (<[2%nat := o]> ∅)) in
  1%nat ≠ 2%nat ∧
  objs s !! 2%nat = Some o ∧
  (∃ s', Container.move_ctor k 1%nat 2%nat s = Ok tt s' ∧
         Container.left_empty k s' 2%nat ∧
         objs s' !! 1%nat = Some o) ∧
  (Container.hollow k s 1%nat →
   ∃ s', Container.move_assign k 1%nat 2%nat s = Ok tt s' ∧
         Container.left_empty k s' 2%nat ∧
         objs s' !! 1%nat = Some o) ∧
  (∀ x bs, Container.owns k s 1%nat x bs →
   ∃ s', Container.move_assign k 1%nat 2%nat s = Ok tt s' ∧
         Container.source_after_assign k s' 2%nat x (length bs) ∧
         objs s' !! 1%nat = Some o).
Proof.
  intros k o s.
  assert (1%nat ≠ 2%nat) as H1 by lia.
  assert (objs s !! 2%nat = Some o) as H2 by reflexivity.
  split; [exact H1|]. split; [exact H2|].
  exact (moved_from_state k 2%nat 1%nat o s H1 H2).
Defined.

(** C2, as stated, fails for the buffer's move assignment: with [b] a
    4-byte buffer and [a] an 8-byte buffer, after [b = std::move(a)] the
    moved-from [a] reports 4 bytes and holds the block that was [b]'s. *)
Lemma buffer_assign_source_not_empty :
  ∃ s' : state SecureBuffer.t,
    (SecureBuffer.ctor 1%nat 4 ;; SecureBuffer.ctor 2%nat 8 ;;
     SecureBuffer.move_assign 1%nat 2%nat) (init 64 xaa) = Ok tt s' ∧
    SecureBuffer.size_bytes 2%nat s' = Ok 4 s' ∧
    SecureBuffer.size_bytes 2%nat s' ≠ Ok 0 s' ∧
    SecureBuffer.data_ptr 2%nat s' = Ok (Ptr 0%nat 0) s' ∧
    ¬ SecureBuffer.hollow s' 2%nat.
Proof.
  eexists. split; [vm_compute; reflexivity|].
  split; [reflexivity|]. split; [discriminate|]. split; [reflexivity|].
  unfold SecureBuffer.hollow. discriminate.
Qed.

(** ** Every machine a client can bring about is in order *)

Section Invariant.
Import Container.
Context (k : kind).
Implicit Types (s : state (obj k)) (o : obj k) (bl : list block)
  (ob : gmap objid (obj k)) (a : addr) (bs : list byte).

Lemma owns_full s i a bs :
  owns k s i a bs ↔
  objs s !! i = Some (full_obj k a (length bs)) ∧
  blocks s !! a = Some (Block bs true).
Proof. by destruct k. Qed.

Lemma hollow_eq s i : hollow k s i ↔ objs s !! i = Some (hollow_obj k).
Proof. by destruct k. Qed.

Lemma storage_hollow : storage k (hollow_obj k) = Null.
Proof. by destruct k. Qed.

Lemma storage_full a n : storage k (full_obj k a n) = Ptr a 0.
Proof. by destruct k. Qed.

Lemma good_storage bl o a off :
  good k bl o → storage k o = Ptr a off →
  ∃ bs, bl !! a = Some (Block bs true) ∧ o = full_obj k a (length bs).
Proof.
  intros [->|(a' & bs & Ha & ->)] Hst.
  - by rewrite storage_hollow in Hst.
  - rewrite storage_full in Hst. injection Hst as -> _. eauto.
Qed.

(** An object of a machine in order holds nothing or owns a block. *)
Lemma wf_classify s i o :
  wf k s → objs s !! i = Some o →
  hollow k s i ∨ ∃ a bs, owns k s i a bs.
Proof.
  intros [W1 _] Hi. destruct (W1 i o Hi) as [->|(a & bs & Ha & ->)].
  - left. by apply hollow_eq.
  - right. exists a, bs. by apply owns_full.
Qed.

Lemma good_app bl b o : good k bl o → good k (bl ++ [b]) o.
Proof.
  intros [->|(a & bs & Ha & ->)]; [by left|right].
  exists a, bs. split; [|done]. by apply lookup_app_l_Some.
Qed.

Lemma good_frame bl a b o :
  good k bl o → storage k o ≠ Ptr a 0 → good k (<[a := b]> bl) o.
Proof.
  intros [->|(a' & bs & Ha & ->)] Hst; [by left|right].
  exists a', bs. split; [|done].
  rewrite list_lookup_insert_ne; [done|].
  intros ->. by rewrite storage_full in Hst.
Qed.

Lemma good_bytes bl a bs bs' o :
  good k bl o → bl !! a = Some (Block bs true) → length bs' = length bs →
  good k (<[a := Block bs' true]> bl) o.
Proof.
  intros [->|(a' & bs0 & Ha' & ->)] Ha Hlen; [by left|right].
  destruct (decide (a' = a)) as [->|Hne].
  - exists a, bs'. rewrite list_lookup_insert_eq by (by apply lookup_lt_Some in Ha).
    split; [done|]. rewrite Ha in Ha'. injection Ha' as <-. by rewrite Hlen.
  - exists a', bs0. by rewrite list_lookup_insert_ne.
Qed.

Lemma wf_init budget j : wf k (State [] budget j ∅).
Proof. split; simpl; intros i; intros; by rewrite lookup_empty in *. Qed.

(** A new object on a new block. *)
Lemma wf_new s this bs av j :
  wf k s →
  wf k (State (blocks s ++ [Block bs true]) av j
              (<[this := full_obj k (length (blocks s)) (length bs)]> (objs s))).
Proof.
  intros [W1 W2].
  assert (∀ i o, objs s !! i = Some o →
            storage k o ≠ Ptr (length (blocks s)) 0) as Hfresh.
  { intros i o Hi Hst. destruct (good_storage _ _ _ _ (W1 i o Hi) Hst) as (? & Ha & _).
    apply lookup_lt_Some in Ha. lia. }
  split; simpl.
  - intros i o Hi. destruct (decide (i = this)) as [->|Hne].
    + rewrite lookup_insert_eq in Hi. injection Hi as <-. right.
      exists (length (blocks s)), bs. split; [|done]. by apply list_lookup_middle.
    + rewrite lookup_insert_ne in Hi by done. apply good_app. eauto.
  - intros i j' oi oj Hi Hj Heq Hnn.
    destruct (decide (i = this)) as [->|Hi'], (decide (j' = this)) as [->|Hj'];
      try done.
    + rewrite lookup_insert_eq in Hi. injection Hi as <-.
      rewrite lookup_insert_ne in Hj by done.
      rewrite storage_full in Heq. by destruct (Hfresh j' oj Hj).
    + rewrite lookup_insert_eq in Hj. injection Hj as <-.
      rewrite lookup_insert_ne in Hi by done.
      rewrite storage_full in Heq. by destruct (Hfresh i oi Hi).
    + rewrite lookup_insert_ne in Hi, Hj by done. eauto.
Qed.

(** [this] takes what [other] had and [other] is left with nothing. *)
Lemma wf_move s this other o av j :
  wf k s → objs s !! other = Some o → this ≠ other →
  wf k (State (blocks s) av j (<[this := o]> (<[other := hollow_obj k]> (objs s)))).
Proof.
  intros [W1 W2] Ho Hne. split; simpl.
  - intros i o' Hi. destruct (decide (i = this)) as [->|Hi1].
    + rewrite lookup_insert_eq in Hi. injection Hi as <-. eauto.
    + rewrite lookup_insert_ne in Hi by done.
      destruct (decide (i = other)) as [->|Hi2].
      * rewrite lookup_insert_eq in Hi. injection Hi as <-. by left.
      * rewrite lookup_insert_ne in Hi by done. eauto.
  - intros i j' oi oj Hi Hj Heq Hnn.
    assert (∀ i oi, (<[this := o]> (<[other := hollow_obj k]> (objs s))) !! i = Some oi →
              storage k oi ≠ Null →
              (i = this ∧ oi = o) ∨ (i ≠ this ∧ i ≠ other ∧ objs s !! i = Some oi))
      as Hcases.
    { clear -Hne. intros i oi Hi Hnn. destruct (decide (i = this)) as [->|Hi1].
      - rewrite lookup_insert_eq in Hi. injection Hi as <-. by left.
      - rewrite lookup_insert_ne in Hi by done.
        destruct (decide (i = other)) as [->|Hi2].
        + rewrite lookup_insert_eq in Hi. injection Hi as <-.
          by rewrite storage_hollow in Hnn.
        + rewrite lookup_insert_ne in Hi by done. by right. }
    assert (storage k oj ≠ Null) as Hnn' by (by rewrite <- Heq).
    destruct (Hcases i oi Hi Hnn) as [[-> ->]|(? & ? & Hi')],
             (Hcases j' oj Hj Hnn') as [[-> ->]|(? & ? & Hj')]; try done.
    + destruct (W2 other j' o oj Ho Hj' Heq Hnn). done.
    + destruct (W2 i other oi o Hi' Ho Heq Hnn). done.
    + eauto.
Qed.

(** [this] and [other] exchange what they have. *)
Lemma wf_swap s this other me o av j :
  wf k s → this ≠ other →
  objs s !! this = Some me → objs s !! other = Some o →
  wf k (State (blocks s) av j (<[other := me]> (<[this := o]> (objs s)))).
Proof.
  intros [W1 W2] Hne Hme Ho.
  assert (∀ i oi, (<[other := me]> (<[this := o]> (objs s))) !! i = Some oi →
            ∃ i', objs s !! i' = Some oi ∧
                  (i = other ∧ i' = this ∨ i = this ∧ i' = other ∨
                   i ≠ this ∧ i ≠ other ∧ i' = i)) as Hcases.
  { intros i oi Hi. destruct (decide (i = other)) as [->|Hi1].
    - rewrite lookup_insert_eq in Hi. injection Hi as <-. exists this. naive_solver.
    - rewrite lookup_insert_ne in Hi by done.
      destruct (decide (i = this)) as [->|Hi2].
      + rewrite lookup_insert_eq in Hi. injection Hi as <-. exists other. naive_solver.
      + rewrite lookup_insert_ne in Hi by done. exists i. naive_solver. }
  split; simpl.
  - intros i oi Hi. destruct (Hcases i oi Hi) as (i' & Hi' & _). eauto.
  - intros i j' oi oj Hi Hj Heq Hnn.
    destruct (Hcases i oi Hi) as (i' & Hi' & Ci),
             (Hcases j' oj Hj) as (j'' & Hj' & Cj).
    pose proof (W2 i' j'' oi oj Hi' Hj' Heq Hnn) as E.
    destruct Ci as [[-> ->]|[[-> ->]|(? & ? & ->)]],
             Cj as [[-> ->]|[[-> ->]|(? & ? & ->)]]; congruence.
Qed.

(** The bytes of a live block change; its length does not. *)
Lemma wf_bytes s a bs bs' av j :
  wf k s → blocks s !! a = Some (Block bs true) → length bs' = length bs →
  wf k (State (<[a := Block bs' true]> (blocks s)) av j (objs s)).
Proof.
  intros [W1 W2] Ha Hlen. split; simpl; [|done].
  intros i o Hi. eapply good_bytes; eauto.
Qed.

(** A block changes that no object holds. *)
Lemma wf_orphan s a b av j :
  wf k s → (∀ i o, objs s !! i = Some o → storage k o ≠ Ptr a 0) →
  wf k (State (<[a := b]> (blocks s)) av j (objs s)).
Proof.
  intros [W1 W2] Hno. split; simpl; [|done].
  intros i o Hi. apply good_frame; eauto.
Qed.

(** An object goes away. *)
Lemma wf_delete s this av j :
  wf k s → wf k (State (blocks s) av j (delete this (objs s))).
Proof.
  intros [W1 W2]. split; simpl.
  - intros i o Hi. apply lookup_delete_Some in Hi as [_ Hi]. eauto.
  - intros i j' oi oj Hi Hj.
    apply lookup_delete_Some in Hi as [_ Hi].
    apply lookup_delete_Some in Hj as [_ Hj]. eauto.
Qed.

End Invariant.

Section Reachable.
Import Container.

Lemma string_ctor_fails this (str : list byte) (s : state SecureString.t) :
  Z.of_nat (length str) < SIZE_MAX →
  avail s < Z.of_nat (length str) + 1 →
  SecureString.ctor this str s = Throw bad_alloc s.
Proof.
  intros Hmax Hav. unfold SecureString.ctor.
  rewrite wrap_small by (unfold is_size_t; lia).
  apply bind_throw. unfold Vector.resize. simpl.
  destruct (Z.leb_spec (Z.of_nat (length str) + 1) 0) as [?|_]; [lia|].
  apply bind_throw. unfold alloc. rewrite decide_False by lia. done.
Qed.

Lemma buffer_calls_keep_wf (c : call Buf) (s s' : state SecureBuffer.t) :
  wf Buf s → call_ok c → run c s = Ok tt s' → wf Buf s'.
Proof.
  intros Hwf Hok Hrun. destruct c as [this n|this other|this other|this]; simpl in *.
  - (* SecureBuffer(n) *)
    destruct Hok as [H0 _]. destruct (decide (n ≤ avail s)) as [Hn|Hn].
    + rewrite buffer_ctor_ok in Hrun by done. injection Hrun as <-.
      pose proof (wf_new Buf s this (replicate (Z.to_nat n) zero)
                    (avail s - n) (junk s) Hwf) as W.
      simpl in W. rewrite length_replicate, Z2Nat.id in W by done. exact W.
    + rewrite buffer_ctor_fails in Hrun by lia. discriminate.
  - (* SecureBuffer(std::move(other)) *)
    destruct (objs s !! other) as [o|] eqn:Ho.
    + rewrite (buffer_move_ctor_ok _ _ _ _ Ho) in Hrun. injection Hrun as <-.
      by apply (wf_move Buf).
    + unfold SecureBuffer.move_ctor, bind, get_obj in Hrun.
      rewrite Ho in Hrun. discriminate.
  - (* this = std::move(other) *)
    destruct (decide (this = other)) as [->|Hne].
    { unfold SecureBuffer.move_assign in Hrun.
      rewrite decide_False in Hrun by (by intros ?). by injection Hrun as <-. }
    destruct (objs s !! this) as [me|] eqn:Hme; cycle 1.
    { unfold SecureBuffer.move_assign in Hrun. rewrite decide_True in Hrun by done.
      unfold SecureBuffer.wipe_self, bind, get_obj in Hrun.
      rewrite Hme in Hrun. discriminate. }
    destruct (objs s !! other) as [o|] eqn:Ho.
    + destruct (wf_classify Buf s this me Hwf Hme) as [Hh|(a & bs & Hown)];
        simpl in *.
      * rewrite (buffer_move_assign_hollow _ _ _ _ Hne Hh Ho) in Hrun.
        injection Hrun as <-. by apply (wf_swap Buf).
      * rewrite (buffer_move_assign_owned _ _ _ _ _ _ Hne Hown Ho) in Hrun.
        injection Hrun as <-. destruct Hown as [Hobj Ha].
        pose proof (wf_bytes Buf s a bs (replicate (length bs) zero)
                      (avail s) (junk s) Hwf Ha
                      ltac:(by rewrite length_replicate)) as W0.
        exact (wf_swap Buf _ this other _ o (avail s) (junk s) W0 Hne Hobj Ho).
    + unfold SecureBuffer.move_assign in Hrun. rewrite decide_True in Hrun by done.
      assert (∀ s1 : state SecureBuffer.t, objs s1 = objs s →
                SecureBuffer.swap_members this other s1 = Fault NoObject) as Hsw.
      { intros s1 E. unfold SecureBuffer.swap_members, bind, get_obj.
        rewrite E, Hme. simpl. by rewrite E, Ho. }
      destruct (wf_classify Buf s this me Hwf Hme) as [Hh|(a & bs & Hown)];
        simpl in *.
      * rewrite (bind_ok _ _ _ _ _ (buffer_wipe_self_hollow _ _ Hh)) in Hrun.
        rewrite Hsw in Hrun by done. discriminate.
      * rewrite (bind_ok _ _ _ _ _ (buffer_wipe_self_owned _ _ _ _ Hown)) in Hrun.
        rewrite Hsw in Hrun by done. discriminate.
  - (* ~SecureBuffer() *)
    destruct (objs s !! this) as [me|] eqn:Hme; cycle 1.
    { unfold SecureBuffer.dtor, SecureBuffer.wipe_self, bind, get_obj in Hrun.
      rewrite Hme in Hrun. discriminate. }
    destruct (wf_classify Buf s this me Hwf Hme) as [Hh|(a & bs & Hown)];
      simpl in *.
    + rewrite (buffer_dtor_hollow _ _ Hh) in Hrun. injection Hrun as <-.
      by apply (wf_delete Buf).
    + rewrite (buffer_dtor_owned _ _ _ _ Hown) in Hrun. injection Hrun as <-.
      pose proof (wf_delete Buf s this (avail s) (junk s) Hwf) as W0.
      refine (wf_orphan Buf _ a _ _ _ W0 _).
      simpl. intros i o Hi Hst. apply lookup_delete_Some in Hi as [Hi' Hi].
      destruct Hwf as [_ W2]. destruct Hown as [Hobj _].
      apply Hi'. apply (W2 this i _ o Hobj Hi); simpl in *; by rewrite ?Hst.
Qed.

Lemma string_calls_keep_wf (c : call Str) (s s' : state SecureString.t) :
  wf Str s → call_ok c → run c s = Ok tt s' → wf Str s'.
Proof.
  intros Hwf Hok Hrun. destruct c as [this str|this other|this other|this]; simpl in *.
  - (* SecureString(str) *)
    destruct (decide (Z.of_nat (length str) + 1 ≤ avail s)) as [Hn|Hn].
    + rewrite string_ctor_ok in Hrun by done. injection Hrun as <-.
      pose proof (wf_new Str s this (str ++ [zero])
                    (avail s - (Z.of_nat (length str) + 1)) (junk s) Hwf) as W.
      simpl in W. rewrite length_app, Nat2Z.inj_add in W. exact W.
    + rewrite string_ctor_fails in Hrun by lia. discriminate.
  - (* SecureString(std::move(other)) *)
    destruct (objs s !! other) as [o|] eqn:Ho.
    + rewrite (string_move_ctor_ok _ _ _ _ Ho) in Hrun. injection Hrun as <-.
      by apply (wf_move Str).
    + unfold SecureString.move_ctor, bind, get_obj in Hrun.
      rewrite Ho in Hrun. discriminate.
  - (* this = std::move(other) *)
    destruct (decide (this = other)) as [->|Hne].
    { unfold SecureString.move_assign in Hrun.
      rewrite decide_False in Hrun by (by intros ?). by injection Hrun as <-. }
    destruct (objs s !! this) as [me|] eqn:Hme; cycle 1.
    { unfold SecureString.move_assign in Hrun. rewrite decide_True in Hrun by done.
      unfold SecureString.wipe_self, bind, get_obj in Hrun.
      rewrite Hme in Hrun. discriminate. }
    destruct (objs s !! other) as [o|] eqn:Ho.
    + destruct (wf_classify Str s this me Hwf Hme) as [Hh|(a & bs & Hown)];
        simpl in *.
      * rewrite (string_move_assign_hollow _ _ _ _ Hne Hh Ho) in Hrun.
        injection Hrun as <-. by apply (wf_swap Str).
      * rewrite (string_move_assign_owned _ _ _ _ _ _ Hne Hown Ho) in Hrun.
        injection Hrun as <-. destruct Hown as [Hobj Ha].
        rewrite insert_insert_ne by done.
        pose proof (wf_move Str s this other o (avail s) (junk s) Hwf Ho Hne) as W0.
        refine (wf_orphan Str _ a _ _ _ W0 _).
        -- simpl. intros i o' Hi Hst. destruct Hwf as [_ W2].
           destruct (decide (i = this)) as [->|Hi1].
           ++ rewrite lookup_insert_eq in Hi. injection Hi as <-.
              apply Hne. apply (W2 this other _ o Hobj Ho); simpl in *; by rewrite ?Hst.
           ++ rewrite lookup_insert_ne in Hi by done.
              destruct (decide (i = other)) as [->|Hi2].
              ** rewrite lookup_insert_eq in Hi. by injection Hi as <-.
              ** rewrite lookup_insert_ne in Hi by done.
                 apply Hi1. symmetry.
                 apply (W2 this i _ o' Hobj Hi); simpl in *; by rewrite ?Hst.
    + unfold SecureString.move_assign in Hrun. rewrite decide_True in Hrun by done.
      assert (∀ s1 : state SecureString.t, objs s1 = objs s →
                SecureString.take_from this other s1 = Fault NoObject) as Htk.
      { intros s1 E. unfold SecureString.take_from, bind, get_obj.
        rewrite E, Hme. simpl. by rewrite E, Ho. }
      destruct (wf_classify Str s this me Hwf Hme) as [Hh|(a & bs & Hown)];
        simpl in *.
      * rewrite (bind_ok _ _ _ _ _ (string_wipe_self_hollow _ _ Hh)) in Hrun.
        rewrite Htk in Hrun by done. discriminate.
      * rewrite (bind_ok _ _ _ _ _ (string_wipe_self_owned _ _ _ _ Hown)) in Hrun.
        rewrite Htk in Hrun by done. discriminate.
  - (* ~SecureString() *)
    destruct (objs s !! this) as [me|] eqn:Hme; cycle 1.
    { unfold SecureString.dtor, SecureString.wipe_self, bind, get_obj in Hrun.
      rewrite Hme in Hrun. discriminate. }
    destruct (wf_classify Str s this me Hwf Hme) as [Hh|(a & bs & Hown)];
      simpl in *.
    + rewrite (string_dtor_hollow _ _ Hh) in Hrun. injection Hrun as <-.
      by apply (wf_delete Str).
    + rewrite (string_dtor_owned _ _ _ _ Hown) in Hrun. injection Hrun as <-.
      pose proof (wf_delete Str s this (avail s) (junk s) Hwf) as W0.
      refine (wf_orphan Str _ a _ _ _ W0 _).
      simpl. intros i o Hi Hst. apply lookup_delete_Some in Hi as [Hi' Hi].
      destruct Hwf as [_ W2]. destruct Hown as [Hobj _].
      apply Hi'. apply (W2 this i _ o Hobj Hi); simpl in *; by rewrite ?Hst.
Qed.

Lemma buffer_poke_keeps_wf this i v (s s' : state SecureBuffer.t) :
  wf Buf s → SecureBuffer.poke this i v s = Ok tt s' → wf Buf s'.
Proof.
  intros Hwf Hrun.
  unfold SecureBuffer.poke, SecureBuffer.data_ptr, bind, get_obj, ret in Hrun.
  destruct (objs s !! this) as [me|] eqn:Hme; [|discriminate].
  destruct (wf_classify Buf s this me Hwf Hme) as [Hh|(a & bs & [Hobj Ha])];
    simpl in *.
  - unfold SecureBuffer.hollow in Hh. rewrite Hh in Hme. injection Hme as <-.
    discriminate.
  - rewrite Hobj in Hme. injection Hme as <-. simpl in Hrun.
    rewrite Ha in Hrun. destruct (decide _) in Hrun; [|discriminate].
    injection Hrun as <-.
    exact (wf_bytes Buf s a bs _ (avail s) (junk s) Hwf Ha
             ltac:(apply length_insert)).
Qed.

(** On a machine in order, a call on objects that exist returns, or, for a
    constructor without memory, throws and changes nothing; it is never
    undefined. *)
Lemma calls_are_defined (k : kind) (c : call k) (s : state (obj k)) :
  wf k s → call_ok c → call_live c s →
  (∃ s', run c s = Ok tt s') ∨ run c s = Throw bad_alloc s.
Proof.
  intros Hwf Hok Hlive.
  destruct k, c as [this arg|this other|this other|this]; simpl in *.
  - destruct Hok as [H0 _]. destruct (decide (arg ≤ avail s)).
    + left. eexists. by apply buffer_ctor_ok.
    + right. apply buffer_ctor_fails. lia.
  - destruct Hlive as [o Ho]. left. eexists. by apply buffer_move_ctor_ok.
  - destruct Hlive as [[me Hme] [o Ho]]. left.
    destruct (decide (this = other)) as [->|Hne].
    { exists s. unfold SecureBuffer.move_assign.
      by rewrite decide_False by (by intros ?). }
    destruct (wf_classify Buf s this me Hwf Hme) as [Hh|(a & bs & Hown)];
      simpl in *; eexists.
    + by apply buffer_move_assign_hollow.
    + by eapply buffer_move_assign_owned.
  - destruct Hlive as [me Hme]. left.
    destruct (wf_classify Buf s this me Hwf Hme) as [Hh|(a & bs & Hown)];
      simpl in *; eexists.
    + by apply buffer_dtor_hollow.
    + by eapply buffer_dtor_owned.
  - destruct (decide (Z.of_nat (length arg) + 1 ≤ avail s)).
    + left. eexists. by apply string_ctor_ok.
    + right. apply string_ctor_fails; [done|lia].
  - destruct Hlive as [o Ho]. left. eexists. by apply string_move_ctor_ok.
  - destruct Hlive as [[me Hme] [o Ho]]. left.
    destruct (decide (this = other)) as [->|Hne].
    { exists s. unfold SecureString.move_assign.
      by rewrite decide_False by (by intros ?). }
    destruct (wf_classify Str s this me Hwf Hme) as [Hh|(a & bs & Hown)];
      simpl in *; eexists.
    + by apply string_move_assign_hollow.
    + by eapply string_move_assign_owned.
  - destruct Hlive as [me Hme]. left.
    destruct (wf_classify Str s this me Hwf Hme) as [Hh|(a & bs & Hown)];
      simpl in *; eexists.
    + by apply string_dtor_hollow.
    + by eapply string_dtor_owned.
Qed.

(** Every machine a client can bring about is in order: each object holds
    nothing or owns a live block whose length it records, and no block has
    two holders. *)
Lemma reachable_wf (k : kind) (s : state (obj k)) : reachable k s → wf k s.
Proof.
  induction 1 as [budget j|s c s' _ IH Hok Hrun|s s' _ IH Hw].
  - apply wf_init.
  - destruct k.
    + by apply (buffer_calls_keep_wf c s s').
    + by apply (string_calls_keep_wf c s s').
  - destruct k; simpl in Hw; [|done].
    destruct Hw as (this & i & v & Hw). by apply (buffer_poke_keeps_wf this i v s s').
Qed.

(** In particular every object of such a machine satisfies one of the two
    descriptions the statements below are about. *)
Lemma reachable_classify (k : kind) (s : state (obj k)) (i : objid) (o : obj k) :
  reachable k s → objs s !! i = Some o →
  hollow k s i ∨ ∃ a bs, owns k s i a bs.
Proof. intros Hr. apply wf_classify. by apply reachable_wf. Qed.

End Reachable.

(** ** The wipe primitive at its calls *)

Section WipeCalls.
Import Container.

(** C5. A call of the wipe primitive with a null pointer or with the length
    0 returns at once and leaves the machine exactly as it was.
    - [SecureBuffer::secure_wipe] does so for every such pair of arguments,
      by its test [!ptr || len == 0].
    - [SecureString::secure_wipe] does so for every pointer when the length
      is 0, its loop being left before the first write.
    - [SecureString::secure_wipe] is called by the member functions only,
      with [(data.data(), data.size())]: on every machine a client can
      bring about and for every object on it, a null [data.data()] comes
      with [data.size()] 0, so the call with a null pointer or a zero
      length returns and changes nothing, and so does the member's
      statement that makes it.
    - The moved-from [other] in the move constructor and in [operator=]
      holds nothing at the moment of its wipe, and the wipe and [clear()]
      of it return and change nothing. *)
Theorem secure_wipe_guarded_noop :
  (∀ p len (s : state SecureBuffer.t),
     p = Null ∨ len = 0 → SecureBuffer.secure_wipe p len s = Ok tt s) ∧
  (∀ p (s : state SecureString.t), SecureString.secure_wipe p 0 s = Ok tt s) ∧
  (∀ (s : state SecureString.t) this me,
     reachable Str s → objs s !! this = Some me →
     let p := Vector.data (SecureString.data me) in
     let len := Vector.size (SecureString.data me) in
     (p = Null → len = 0) ∧
     (p = Null ∨ len = 0 →
      SecureString.secure_wipe p len s = Ok tt s ∧
      SecureString.wipe_self this s = Ok tt s)) ∧
  (∀ (s : state SecureString.t) other,
     SecureString.hollow s other →
     SecureString.wipe_other other s = Ok tt s).
Proof.
  split; [|split; [|split]].
  - intros p len s [->| ->]; [reflexivity|].
    unfold SecureBuffer.secure_wipe. simpl. by rewrite orb_true_r.
  - intros p s. reflexivity.
  - intros s this me Hr Hme p len.
    assert (p = Null → len = 0) as Hnull.
    { intros Hp.
      destruct (wf_classify Str s this me (reachable_wf Str s Hr) Hme)
        as [Hh|(a & bs & [Hobj _])]; simpl in *.
      - unfold SecureString.hollow in Hh. rewrite Hh in Hme.
        by injection Hme as <-.
      - rewrite Hobj in Hme. injection Hme as <-. by subst p. }
    split; [exact Hnull|]. intros Hor.
    assert (len = 0) as Hlen by (destruct Hor; auto).
    assert (SecureString.secure_wipe p len s = Ok tt s) as Hw.
    { rewrite Hlen. reflexivity. }
    split; [exact Hw|].
    unfold SecureString.wipe_self, bind, get_obj. by rewrite Hme.
  - intros s other Hh. by apply string_wipe_other_hollow.
Qed.

(** The theorem at a string that has been moved from. *)
Lemma secure_wipe_guarded_noop_witness :
  let s : state SecureString.t :=
    after (run (k := Str) (MoveConstruct 2%nat 1%nat))
      (after (run (@Construct Str 1%nat secret)) (init 64 xaa)) in
  let me := SecureString.Obj Vector.empty in
  reachable Str s ∧ objs s !! 1%nat = Some me ∧
  (Vector.data (SecureString.data me) = Null ∨
   Vector.size (SecureString.data me) = 0) ∧
  SecureString.hollow s 1%nat ∧
  SecureString.secure_wipe (Vector.data (SecureString.data me))
    (Vector.size (SecureString.data me)) s = Ok tt s ∧
  SecureString.wipe_self 1%nat s = Ok tt s ∧
  SecureString.wipe_other 1%nat s = Ok tt s.
Proof.
  intros s me.
  assert (reachable Str s) as H1.
  { apply reach_call with
      (s := after (run (@Construct Str 1%nat secret)) (init 64 xaa))
      (c := MoveConstruct 2%nat 1%nat);
      [|by vm_compute | vm_compute; reflexivity].
    apply reach_call with (s := init 64 xaa) (c := @Construct Str 1%nat secret);
      [apply reach_init | by vm_compute | vm_compute; reflexivity]. }
  assert (objs s !! 1%nat = Some me) as H2 by reflexivity.
  assert (Vector.data (SecureString.data me) = Null ∨
          Vector.size (SecureString.data me) = 0) as H3 by (left; reflexivity).
  assert (SecureString.hollow s 1%nat) as H4 by reflexivity.
  destruct secure_wipe_guarded_noop as (_ & _ & Hcall & Hother).
  destruct (Hcall s 1%nat me H1 H2) as [_ Hnoop].
  destruct (Hnoop H3) as [Hw Hs].
  split; [exact H1|]. split; [exact H2|]. split; [exact H3|]. split; [exact H4|].
  split; [exact Hw|]. split; [exact Hs|]. exact (Hother s 1%nat H4).
Defined.

End WipeCalls.

(** * Further properties *)

(** ** The effect of a call on the heap *)

Section HeapSteps.
Import Container.

Lemma all_zero_replicate n : all_zero (replicate n zero).
Proof. unfold all_zero. apply Forall_forall. by intros b ->%elem_of_replicate_inv. Qed.

Lemma buffer_call_heap_step (c : call Buf) (s s' : state SecureBuffer.t) :
  wf Buf s → call_ok c → run c s = Ok tt s' →
  heap_step Buf (blocks s) (blocks s').
Proof.
  intros Hwf Hok Hrun. destruct c as [this n|this other|this other|this]; simpl in *.
  - destruct Hok as [H0 _]. destruct (decide (n ≤ avail s)) as [Hn|Hn].
    + rewrite buffer_ctor_ok in Hrun by done. injection Hrun as <-. simpl.
      apply hs_new. apply all_zero_replicate.
    + rewrite buffer_ctor_fails in Hrun by lia. discriminate.
  - destruct (objs s !! other) as [o|] eqn:Ho.
    + rewrite (buffer_move_ctor_ok _ _ _ _ Ho) in Hrun. injection Hrun as <-.
      apply hs_same.
    + unfold SecureBuffer.move_ctor, bind, get_obj in Hrun.
      rewrite Ho in Hrun. discriminate.
  - destruct (decide (this = other)) as [->|Hne].
    { unfold SecureBuffer.move_assign in Hrun.
      rewrite decide_False in Hrun by (by intros ?). injection Hrun as <-.
      apply hs_same. }
    destruct (objs s !! this) as [me|] eqn:Hme; cycle 1.
    { unfold SecureBuffer.move_assign in Hrun. rewrite decide_True in Hrun by done.
      unfold SecureBuffer.wipe_self, bind, get_obj in Hrun.
      rewrite Hme in Hrun. discriminate. }
    destruct (objs s !! other) as [o|] eqn:Ho.
    + destruct (wf_classify Buf s this me Hwf Hme) as [Hh|(a & bs & Hown)];
        simpl in *.
      * rewrite (buffer_move_assign_hollow _ _ _ _ Hne Hh Ho) in Hrun.
        injection Hrun as <-. apply hs_same.
      * rewrite (buffer_move_assign_owned _ _ _ _ _ _ Hne Hown Ho) in Hrun.
        injection Hrun as <-. destruct Hown as [_ Ha]. simpl.
        eapply hs_write; [done | exact Ha | apply length_replicate].
    + unfold SecureBuffer.move_assign in Hrun. rewrite decide_True in Hrun by done.
      assert (∀ s1 : state SecureBuffer.t, objs s1 = objs s →
                SecureBuffer.swap_members this other s1 = Fault NoObject) as Hsw.
      { intros s1 E. unfold SecureBuffer.swap_members, bind, get_obj.
        rewrite E, Hme. simpl. by rewrite E, Ho. }
      destruct (wf_classify Buf s this me Hwf Hme) as [Hh|(a & bs & Hown)];
        simpl in *.
      * rewrite (bind_ok _ _ _ _ _ (buffer_wipe_self_hollow _ _ Hh)) in Hrun.
        rewrite Hsw in Hrun by done. discriminate.
      * rewrite (bind_ok _ _ _ _ _ (buffer_wipe_self_owned _ _ _ _ Hown)) in Hrun.
        rewrite Hsw in Hrun by done. discriminate.
  - destruct (objs s !! this) as [me|] eqn:Hme; cycle 1.
    { unfold SecureBuffer.dtor, SecureBuffer.wipe_self, bind, get_obj in Hrun.
      rewrite Hme in Hrun. discriminate. }
    destruct (wf_classify Buf s this me Hwf Hme) as [Hh|(a & bs & Hown)];
      simpl in *.
    + rewrite (buffer_dtor_hollow _ _ Hh) in Hrun. injection Hrun as <-.
      apply hs_same.
    + rewrite (buffer_dtor_owned _ _ _ _ Hown) in Hrun. injection Hrun as <-.
      destruct Hown as [_ Ha]. simpl. by apply hs_release.
Qed.

Lemma string_call_heap_step (c : call Str) (s s' : state SecureString.t) :
  wf Str s → call_ok c → run c s = Ok tt s' →
  heap_step Str (blocks s) (blocks s').
Proof.
  intros Hwf Hok Hrun. destruct c as [this str|this other|this other|this]; simpl in *.
  - destruct (decide (Z.of_nat (length str) + 1 ≤ avail s)) as [Hn|Hn].
    + rewrite string_ctor_ok in Hrun by done. injection Hrun as <-. simpl.
      apply hs_new. by exists str.
    + rewrite string_ctor_fails in Hrun by lia. discriminate.
  - destruct (objs s !! other) as [o|] eqn:Ho.
    + rewrite (string_move_ctor_ok _ _ _ _ Ho) in Hrun. injection Hrun as <-.
      apply hs_same.
    + unfold SecureString.move_ctor, bind, get_obj in Hrun.
      rewrite Ho in Hrun. discriminate.
  - destruct (decide (this = other)) as [->|Hne].
    { unfold SecureString.move_assign in Hrun.
      rewrite decide_False in Hrun by (by intros ?). injection Hrun as <-.
      apply hs_same. }
    destruct (objs s !! this) as [me|] eqn:Hme; cycle 1.
    { unfold SecureString.move_assign in Hrun. rewrite decide_True in Hrun by done.
      unfold SecureString.wipe_self, bind, get_obj in Hrun.
      rewrite Hme in Hrun. discriminate. }
    destruct (objs s !! other) as [o|] eqn:Ho.
    + destruct (wf_classify Str s this me Hwf Hme) as [Hh|(a & bs & Hown)];
        simpl in *.
      * rewrite (string_move_assign_hollow _ _ _ _ Hne Hh Ho) in Hrun.
        injection Hrun as <-. apply hs_same.
      * rewrite (string_move_assign_owned _ _ _ _ _ _ Hne Hown Ho) in Hrun.
        injection Hrun as <-. destruct Hown as [_ Ha]. simpl.
        by apply hs_release.
    + unfold SecureString.move_assign in Hrun. rewrite decide_True in Hrun by done.
      assert (∀ s1 : state SecureString.t, objs s1 = objs s →
                SecureString.take_from this other s1 = Fault NoObject) as Htk.
      { intros s1 E. unfold SecureString.take_from, bind, get_obj.
        rewrite E, Hme. simpl. by rewrite E, Ho. }
      destruct (wf_classify Str s this me Hwf Hme) as [Hh|(a & bs & Hown)];
        simpl in *.
      * rewrite (bind_ok _ _ _ _ _ (string_wipe_self_hollow _ _ Hh)) in Hrun.
        rewrite Htk in Hrun by done. discriminate.
      * rewrite (bind_ok _ _ _ _ _ (string_wipe_self_owned _ _ _ _ Hown)) in Hrun.
        rewrite Htk in Hrun by done. discriminate.
  - destruct (objs s !! this) as [me|] eqn:Hme; cycle 1.
    { unfold SecureString.dtor, SecureString.wipe_self, bind, get_obj in Hrun.
      rewrite Hme in Hrun. discriminate. }
    destruct (wf_classify Str s this me Hwf Hme) as [Hh|(a & bs & Hown)];
      simpl in *.
    + rewrite (string_dtor_hollow _ _ Hh) in Hrun. injection Hrun as <-.
      apply hs_same.
    + rewrite (string_dtor_owned _ _ _ _ Hown) in Hrun. injection Hrun as <-.
      destruct Hown as [_ Ha]. simpl. by apply hs_release.
Qed.

Lemma buffer_poke_heap_step this i v (s s' : state SecureBuffer.t) :
  wf Buf s → SecureBuffer.poke this i v s = Ok tt s' →
  heap_step Buf (blocks s) (blocks s').
Proof.
  intros Hwf Hrun.
  unfold SecureBuffer.poke, SecureBuffer.data_ptr, bind, get_obj, ret in Hrun.
  destruct (objs s !! this) as [me|] eqn:Hme; [|discriminate].
  destruct (wf_classify Buf s this me Hwf Hme) as [Hh|(a & bs & [Hobj Ha])];
    simpl in *.
  - unfold SecureBuffer.hollow in Hh. rewrite Hh in Hme. injection Hme as <-.
    discriminate.
  - rewrite Hobj in Hme. injection Hme as <-. simpl in Hrun.
    rewrite Ha in Hrun. destruct (decide _) in Hrun; [|discriminate].
    injection Hrun as <-. simpl.
    eapply hs_write; [done | exact Ha | apply length_insert].
Qed.

Lemma call_heap_step (k : kind) (c : call k) (s s' : state (obj k)) :
  wf k s → call_ok c → run c s = Ok tt s' →
  heap_step k (blocks s) (blocks s').
Proof.
  destruct k; [apply buffer_call_heap_step | apply string_call_heap_step].
Qed.

Lemma write_heap_step (k : kind) (s s' : state (obj k)) :
  wf k s → client_write k s s' → heap_step k (blocks s) (blocks s').
Proof.
  intros Hwf Hw. destruct k; simpl in Hw; [|done].
  destruct Hw as (this & i & v & Hw). by eapply buffer_poke_heap_step.
Qed.

(** What a step does to the block at a given address. *)
Lemma heap_step_lookup k bl bl' a b :
  heap_step k bl bl' → bl' !! a = Some b →
  bl !! a = Some b ∨
  (bl !! a = None ∧ ∃ bs, b = Block bs true ∧ fresh_bytes k bs) ∨
  (k = Buf ∧ ∃ bs bs', bl !! a = Some (Block bs true) ∧ b = Block bs' true ∧
     length bs' = length bs) ∨
  (∃ bs, bl !! a = Some (Block bs true) ∧
     b = Block (replicate (length bs) zero) false).
Proof.
  intros Hst Hb. destruct Hst as [|bs Hf|x bs bs' Hk Hx Hlen|x bs Hx].
  - by left.
  - destruct (decide (a < length bl)%nat) as [Hlt|Hge].
    + left. by rewrite lookup_app_l in Hb.
    + right. left. rewrite lookup_app_r in Hb by lia.
      split; [apply lookup_ge_None; lia|].
      destruct (a - length bl)%nat; simpl in Hb; [|done].
      injection Hb as <-. eauto.
  - destruct (decide (a = x)) as [->|Hne].
    + rewrite list_lookup_insert_eq in Hb by (by apply lookup_lt_Some in Hx).
      injection Hb as <-. right. right. left. eauto 10.
    + left. by rewrite list_lookup_insert_ne in Hb.
  - destruct (decide (a = x)) as [->|Hne].
    + rewrite list_lookup_insert_eq in Hb by (by apply lookup_lt_Some in Hx).
      injection Hb as <-. right. right. right. eauto.
    + left. by rewrite list_lookup_insert_ne in Hb.
Qed.

Lemma heap_step_dead_zero k bl bl' :
  heap_step k bl bl' → dead_zero bl → dead_zero bl'.
Proof.
  intros Hst Hdz a bs Ha.
  destruct (heap_step_lookup _ _ _ _ _ Hst Ha)
    as [H|[(_ & ? & [=] & _)|[(_ & ? & ? & _ & [=] & _)|(bs0 & _ & [= ->])]]].
  - eauto.
  - apply all_zero_replicate.
Qed.

Lemma heap_step_live_terminated bl bl' :
  heap_step Str bl bl' → live_terminated bl → live_terminated bl'.
Proof.
  intros Hst Hlt a bs Ha.
  destruct (heap_step_lookup _ _ _ _ _ Hst Ha)
    as [H|[(_ & ? & [= <-] & Hf)|[([=] & _)|(bs0 & _ & [=])]]]; eauto.
Qed.

Lemma reachable_dead_zero (k : kind) (s : state (obj k)) :
  reachable k s → dead_zero (blocks s).
Proof.
  induction 1 as [budget j|s c s' Hr IH Hok Hrun|s s' Hr IH Hw].
  - intros a bs Ha. simpl in Ha. by rewrite lookup_nil in Ha.
  - eapply heap_step_dead_zero; [|exact IH].
    eapply call_heap_step; eauto using reachable_wf.
  - eapply heap_step_dead_zero; [|exact IH].
    eapply write_heap_step; eauto using reachable_wf.
Qed.

Lemma reachable_live_terminated (s : state SecureString.t) :
  reachable Str s → live_terminated (blocks s).
Proof.
  induction 1 as [budget j|s c s' Hr IH Hok Hrun|s s' Hr IH Hw].
  - intros a bs Ha. simpl in Ha. by rewrite lookup_nil in Ha.
  - eapply heap_step_live_terminated; [|exact IH].
    eapply (call_heap_step Str); eauto using reachable_wf.
  - done.
Qed.

End HeapSteps.

(** ** What holds on every machine a client can bring about *)

Section Always.
Import Container.

Lemma reach_run (k : kind) (c : call k) (s : state (obj k)) :
  reachable k s → call_ok c → (∃ s', run c s = Ok tt s') →
  reachable k (after (run c) s).
Proof.
  intros Hr Hok [s' Hrun]. apply (reach_call k s c); [done..|].
  unfold after. by rewrite Hrun.
Qed.

(** X1. On every machine a client can bring about, a call of the public
    interface on objects that exist is never undefined: it returns, leaving
    such a machine again, or it is a constructor whose request exceeds what
    the allocator has, and then it throws [std::bad_alloc] and the machine
    is as it was. Moves, assignments and destructors always return. *)
Theorem reachable_calls_never_undefined (k : kind) (c : call k) (s : state (obj k)) :
  reachable k s → call_ok c → call_live c s →
  (∃ s', run c s = Ok tt s' ∧ reachable k s') ∨
  ((∃ this arg, c = Construct this arg ∧ avail s < demand k arg) ∧
   run c s = Throw bad_alloc s).
Proof.
  intros Hr Hok Hlive. pose proof (reachable_wf k s Hr) as Hwf.
  assert ((∃ s', run c s = Ok tt s') →
          ∃ s', run c s = Ok tt s' ∧ reachable k s') as Hstep.
  { intros [s' Hrun]. exists s'. split; [done|]. by apply (reach_call k s c). }
  destruct k, c as [this arg|this other|this other|this]; simpl in *.
  - destruct Hok as [H0 _]. destruct (decide (arg ≤ avail s)).
    + left. apply Hstep. eexists. by apply buffer_ctor_ok.
    + right. split; [exists this, arg; split; [done|lia]|].
      apply buffer_ctor_fails. lia.
  - destruct Hlive as [o Ho]. left. apply Hstep. eexists.
    by apply buffer_move_ctor_ok.
  - destruct Hlive as [[me Hme] [o Ho]]. left. apply Hstep.
    destruct (decide (this = other)) as [->|Hne].
    { exists s. unfold SecureBuffer.move_assign.
      by rewrite decide_False by (by intros ?). }
    destruct (wf_classify Buf s this me Hwf Hme) as [Hh|(a & bs & Hown)];
      simpl in *; eexists.
    + by apply buffer_move_assign_hollow.
    + by eapply buffer_move_assign_owned.
  - destruct Hlive as [me Hme]. left. apply Hstep.
    destruct (wf_classify Buf s this me Hwf Hme) as [Hh|(a & bs & Hown)];
      simpl in *; eexists.
    + by apply buffer_dtor_hollow.
    + by eapply buffer_dtor_owned.
  - destruct (decide (Z.of_nat (length arg) + 1 ≤ avail s)).
    + left. apply Hstep. eexists. by apply string_ctor_ok.
    + right. split; [exists this, arg; split; [done|lia]|].
      apply string_ctor_fails; [done|lia].
  - destruct Hlive as [o Ho]. left. apply Hstep. eexists.
    by apply string_move_ctor_ok.
  - destruct Hlive as [[me Hme] [o Ho]]. left. apply Hstep.
    destruct (decide (this = other)) as [->|Hne].
    { exists s. unfold SecureString.move_assign.
      by rewrite decide_False by (by intros ?). }
    destruct (wf_classify Str s this me Hwf Hme) as [Hh|(a & bs & Hown)];
      simpl in *; eexists.
    + by apply string_move_assign_hollow.
    + by eapply string_move_assign_owned.
  - destruct Hlive as [me Hme]. left. apply Hstep.
    destruct (wf_classify Str s this me Hwf Hme) as [Hh|(a & bs & Hown)];
      simpl in *; eexists.
    + by apply string_dtor_hollow.
    + by eapply string_dtor_owned.
Qed.

Lemma reachable_calls_never_undefined_witness :
  let k := Str in
  let s : state (obj k) := after (run (@Construct Str 1%nat secret)) (init 64 xaa) in
  let c : call k := MoveAssign 1%nat 1%nat in
  reachable k s ∧ call_ok c ∧ call_live c s ∧
  ((∃ s', run c s = Ok tt s' ∧ reachable k s') ∨
   ((∃ this arg, c = Construct this arg ∧ avail s < demand k arg) ∧
    run c s = Throw bad_alloc s)).
Proof.
  intros k s c.
  assert (reachable k s) as H1.
  { apply reach_run; [apply reach_init | by vm_compute | eexists; vm_compute; reflexivity]. }
  assert (call_ok c) as H2 by exact I.
  assert (call_live c s) as H3 by (split; eexists; reflexivity).
  split; [exact H1|]. split; [exact H2|]. split; [exact H3|].
  exact (reachable_calls_never_undefined k c s H1 H2 H3).
Defined.

(** X2. On every machine a client can bring about, an object whose pointer
    member is not null points at the start of a block that is still
    allocated and whose length is the size the object records, and no other
    object points at that block: storage is never dangling and never
    shared. *)
Theorem reachable_single_owner (k : kind) (s : state (obj k))
    (i j : objid) (oi oj : obj k) (a : addr) (off : Z) :
  reachable k s →
  objs s !! i = Some oi →
  objs s !! j = Some oj →
  storage k oi = Ptr a off →
  off = 0 ∧
  (∃ bs, blocks s !! a = Some (Block bs true) ∧ oi = full_obj k a (length bs)) ∧
  (storage k oj = Ptr a off → i = j).
Proof.
  intros Hr Hi Hj Hst. destruct (reachable_wf k s Hr) as [W1 W2].
  destruct (W1 i oi Hi) as [->|(a' & bs & Ha & ->)].
  - by rewrite storage_hollow in Hst.
  - rewrite storage_full in Hst. injection Hst as <- <-.
    split; [done|]. split; [eauto|].
    intros Hj'. apply (W2 i j _ oj Hi Hj); rewrite storage_full; [done|done].
Qed.

Lemma reachable_single_owner_witness :
  let k := Buf in
  let s : state (obj k) := after (run (@Construct Buf 1%nat 4)) (init 64 xaa) in
  let o := SecureBuffer.Obj (Ptr 0%nat 0) 4 in
  reachable k s ∧
  objs s !! 1%nat = Some o ∧
  objs s !! 1%nat = Some o ∧
  storage k o = Ptr 0%nat 0 ∧
  (0 = 0 ∧
   (∃ bs, blocks s !! 0%nat = Some (Block bs true) ∧ o = full_obj k 0%nat (length bs)) ∧
   (storage k o = Ptr 0%nat 0 → 1%nat = 1%nat)).
Proof.
  intros k s o.
  assert (reachable k s) as H1.
  { apply reach_run; [apply reach_init | by vm_compute | eexists; vm_compute; reflexivity]. }
  assert (objs s !! 1%nat = Some o) as H2 by reflexivity.
  assert (storage k o = Ptr 0%nat 0) as H3 by reflexivity.
  split; [exact H1|]. split; [exact H2|]. split; [exact H2|]. split; [exact H3|].
  exact (reachable_single_owner k s 1%nat 1%nat o o 0%nat 0 H1 H2 H2 H3).
Defined.

(** X3. On every machine a client can bring about, a call that returns
    changes the heap in one of four ways only: not at all; by one new block,
    holding what the constructor puts there; by new bytes in one allocated
    block of a buffer, whose length stays ([operator=] of the buffer wipes
    its block and keeps it allocated); or by zeroing one allocated block
    and releasing it. No call writes to a released block, changes the
    length of a block, or releases a block without zeroing all of it. *)
Theorem reachable_call_heap_step (k : kind) (c : call k) (s s' : state (obj k)) :
  reachable k s → call_ok c → run c s = Ok tt s' →
  heap_step k (blocks s) (blocks s').
Proof.
  intros Hr Hok Hrun. eapply call_heap_step; eauto using reachable_wf.
Qed.

Lemma reachable_call_heap_step_witness :
  let k := Str in
  let s : state (obj k) := after (run (@Construct Str 1%nat secret)) (init 64 xaa) in
  let c : call k := Destroy 1%nat in
  reachable k s ∧ call_ok c ∧ run c s = Ok tt (after (run c) s) ∧
  heap_step k (blocks s) (blocks (after (run c) s)).
Proof.
  intros k s c.
  assert (reachable k s) as H1.
  { apply reach_run; [apply reach_init | by vm_compute | eexists; vm_compute; reflexivity]. }
  assert (call_ok c) as H2 by exact I.
  assert (run c s = Ok tt (after (run c) s)) as H3 by reflexivity.
  split; [exact H1|]. split; [exact H2|]. split; [exact H3|].
  exact (reachable_call_heap_step k c s _ H1 H2 H3).
Defined.

(** X4. On every machine a client can bring about, every block that has
    been released holds nothing but zeros: whatever sequence of
    constructions, client writes, moves, assignments and destructions led
    there, no byte of a secret is left in memory returned to the
    allocator. *)
Theorem released_memory_is_zero (k : kind) (s : state (obj k))
    (a : addr) (bs : list byte) :
  reachable k s →
  blocks s !! a = Some (Block bs false) →
  all_zero bs.
Proof. intros Hr Ha. by eapply reachable_dead_zero. Qed.

Lemma released_memory_is_zero_witness :
  let k := Str in
  let s : state (obj k) :=
    after (run (k := k) (Destroy 1%nat))
      (after (run (@Construct Str 1%nat secret)) (init 64 xaa)) in
  reachable k s ∧
  blocks s !! 0%nat = Some (Block (replicate 7 zero) false) ∧
  all_zero (replicate 7 zero).
Proof.
  intros k s.
  assert (reachable k s) as H1.
  { apply reach_run; [|exact I | eexists; vm_compute; reflexivity].
    apply reach_run; [apply reach_init | by vm_compute | eexists; vm_compute; reflexivity]. }
  assert (blocks s !! 0%nat = Some (Block (replicate 7 zero) false)) as H2
    by reflexivity.
  split; [exact H1|]. split; [exact H2|].
  exact (released_memory_is_zero k s 0%nat _ H1 H2).
Defined.

(** X5. On every machine a client can bring about, a [SecureString] whose
    [c_str()] is not null points at the start of an allocated block that
    holds a text followed by its zero terminator, and [size()] is the
    length of that text: the terminator and the size survive every move and
    assignment. *)
Theorem string_stays_terminated (s : state SecureString.t) (this : objid)
    (p : pointer) :
  reachable Str s →
  SecureString.c_str this s = Ok p s →
  p ≠ Null →
  ∃ a str,
    p = Ptr a 0 ∧
    blocks s !! a = Some (Block (str ++ [zero]) true) ∧
    SecureString.size this s = Ok (Z.of_nat (length str)) s.
Proof.
  intros Hr Hp Hnn.
  unfold SecureString.c_str, bind, get_obj, ret in Hp.
  destruct (objs s !! this) as [me|] eqn:Hme; [|discriminate].
  injection Hp as Hp.
  destruct (wf_classify Str s this me (reachable_wf Str s Hr) Hme)
    as [Hh|(a & bs & [Hobj Ha])]; simpl in *.
  - unfold SecureString.hollow in Hh. rewrite Hh in Hme. injection Hme as <-.
    by subst p.
  - rewrite Hobj in Hme. injection Hme as <-. simpl in Hp. subst p.
    destruct (reachable_live_terminated s Hr a bs Ha) as (str & -> & Hlen).
    exists a, str. split; [done|]. split; [done|].
    unfold SecureString.size, bind, get_obj, ret. rewrite Hobj. simpl.
    rewrite length_app. simpl.
    destruct (Z.eqb_spec (Z.of_nat (length str + 1)) 0) as [?|_]; [lia|].
    do 2 f_equal.
    replace (Z.of_nat (length str + 1) - 1) with (Z.of_nat (length str)) by lia.
    apply wrap_small. unfold is_size_t. lia.
Qed.

Lemma string_stays_terminated_witness :
  let s : state SecureString.t :=
    after (run (k := Str) (MoveConstruct 2%nat 1%nat))
      (after (run (@Construct Str 1%nat secret)) (init 64 xaa)) in
  reachable Str s ∧
  SecureString.c_str 2%nat s = Ok (Ptr 0%nat 0) s ∧
  Ptr 0%nat 0 ≠ Null ∧
  ∃ a str,
    Ptr 0%nat 0 = Ptr a 0 ∧
    blocks s !! a = Some (Block (str ++ [zero]) true) ∧
    SecureString.size 2%nat s = Ok (Z.of_nat (length str)) s.
Proof.
  intros s.
  assert (reachable Str s) as H1.
  { apply reach_run; [|by vm_compute | eexists; vm_compute; reflexivity].
    apply reach_run; [apply reach_init | by vm_compute | eexists; vm_compute; reflexivity]. }
  assert (SecureString.c_str 2%nat s = Ok (Ptr 0%nat 0) s) as H2 by reflexivity.
  assert (Ptr 0%nat 0 ≠ Null) as H3 by discriminate.
  split; [exact H1|]. split; [exact H2|]. split; [exact H3|].
  exact (string_stays_terminated s 2%nat _ H1 H2 H3).
Defined.

(** X6. On every machine a client can bring about, [size_bytes()] of a
    [SecureBuffer] is the number of bytes behind [data_ptr()]: when the
    pointer is null the size is 0, and otherwise the pointer is the start
    of an allocated block of exactly [size_bytes()] bytes, each of which
    can be read. *)
Theorem buffer_size_matches_storage (s : state SecureBuffer.t) (this : objid)
    (p : pointer) :
  reachable Buf s →
  SecureBuffer.data_ptr this s = Ok p s →
  (p = Null ∧ SecureBuffer.size_bytes this s = Ok 0 s) ∨
  (∃ a bs,
     p = Ptr a 0 ∧
     blocks s !! a = Some (Block bs true) ∧
     SecureBuffer.size_bytes this s = Ok (Z.of_nat (length bs)) s ∧
     ∀ (i : nat) b, bs !! i = Some b →
       load (ptr_add p (Z.of_nat i)) s = Ok b s).
Proof.
  intros Hr Hp.
  unfold SecureBuffer.data_ptr, bind, get_obj, ret in Hp.
  destruct (objs s !! this) as [me|] eqn:Hme; [|discriminate].
  injection Hp as Hp.
  destruct (wf_classify Buf s this me (reachable_wf Buf s Hr) Hme)
    as [Hh|(a & bs & [Hobj Ha])]; simpl in *.
  - left. unfold SecureBuffer.hollow in Hh. rewrite Hh in Hme.
    injection Hme as <-. split; [by subst p|].
    unfold SecureBuffer.size_bytes, bind, get_obj, ret. by rewrite Hh.
  - right. rewrite Hobj in Hme. injection Hme as <-. simpl in Hp. subst p.
    exists a, bs. split; [done|]. split; [done|]. split.
    + unfold SecureBuffer.size_bytes, bind, get_obj, ret. by rewrite Hobj.
    + intros i b Hb. unfold ptr_add.
      replace (0 + Z.of_nat i) with (Z.of_nat i) by lia.
      by eapply load_ok.
Qed.

Lemma buffer_size_matches_storage_witness :
  let s : state SecureBuffer.t :=
    after (run (@Construct Buf 1%nat 4)) (init 64 xaa) in
  let p := Ptr 0%nat 0 in
  reachable Buf s ∧
  SecureBuffer.data_ptr 1%nat s = Ok p s ∧
  ((p = Null ∧ SecureBuffer.size_bytes 1%nat s = Ok 0 s) ∨
   (∃ a bs,
      p = Ptr a 0 ∧
      blocks s !! a = Some (Block bs true) ∧
      SecureBuffer.size_bytes 1%nat s = Ok (Z.of_nat (length bs)) s ∧
      ∀ (i : nat) b, bs !! i = Some b →
        load (ptr_add p (Z.of_nat i)) s = Ok b s)).
Proof.
  intros s p.
  assert (reachable Buf s) as H1.
  { apply reach_run; [apply reach_init | by vm_compute | eexists; vm_compute; reflexivity]. }
  assert (SecureBuffer.data_ptr 1%nat s = Ok p s) as H2 by reflexivity.
  split; [exact H1|]. split; [exact H2|].
  exact (buffer_size_matches_storage s 1%nat p H1 H2).
Defined.

End Always.

(** ** The wipe primitive on part of a block *)

Section WipeRange.
Import Container.

Lemma wipe_loop_range {T} a (i n : nat) bs (s : state T) :
  blocks s !! a = Some (Block bs true) →
  (i + n ≤ length bs)%nat →
  wipe_loop (Ptr a (Z.of_nat i)) (Z.of_nat n) s =
    Ok tt (set_blocks
             (<[a := Block (take i bs ++ replicate n zero ++ drop (i + n) bs) true]>
                (blocks s)) s).
Proof.
  intros Ha Hn. unfold wipe_loop. rewrite Nat2Z.id. by apply fill_n_ok.
Qed.

Lemma secure_wipe_range (k : kind) a (i n : nat) bs (s : state (obj k)) :
  blocks s !! a = Some (Block bs true) →
  (i + n ≤ length bs)%nat →
  secure_wipe k (Ptr a (Z.of_nat i)) (Z.of_nat n) s =
    Ok tt (set_blocks
             (<[a := Block (take i bs ++ replicate n zero ++ drop (i + n) bs) true]>
                (blocks s)) s).
Proof.
  intros Ha Hn. destruct k; simpl.
  - unfold SecureBuffer.secure_wipe. simpl.
    destruct (Z.eqb_spec (Z.of_nat n) 0) as [E|E].
    + assert (n = 0%nat) as -> by lia. simpl.
      rewrite Nat.add_0_r, take_drop, list_insert_id by done.
      by rewrite set_blocks_same.
    + by apply wipe_loop_range.
  - unfold SecureString.secure_wipe. by apply wipe_loop_range.
Qed.

(** X7. Either wipe primitive, given a pointer to offset [i] of an allocated
    block and a length [n] that stays within the block, sets exactly the
    bytes [i .. i + n) of that block to zero: the bytes before and after,
    every other block, every object and the allocator are as they were. *)
Theorem secure_wipe_exact_range (k : kind) (a : addr) (i n : nat)
    (bs : list byte) (s : state (obj k)) :
  blocks s !! a = Some (Block bs true) →
  (i + n ≤ length bs)%nat →
  ∃ s',
    secure_wipe k (Ptr a (Z.of_nat i)) (Z.of_nat n) s = Ok tt s' ∧
    blocks s' !! a =
      Some (Block (take i bs ++ replicate n zero ++ drop (i + n) bs) true) ∧
    (∀ a', a' ≠ a → blocks s' !! a' = blocks s !! a') ∧
    length (blocks s') = length (blocks s) ∧
    objs s' = objs s ∧ avail s' = avail s.
Proof.
  intros Ha Hn. eexists. split; [by apply secure_wipe_range|].
  simpl. repeat split.
  - apply list_lookup_insert_eq. by apply lookup_lt_Some in Ha.
  - intros a' Hne. by apply list_lookup_insert_ne.
  - apply length_insert.
Qed.

Lemma secure_wipe_exact_range_witness :
  let k := Str in
  let bs := [x6b; x65; x79; x73] in
  let s : state (obj k) := State [Block bs true] 0 xaa ∅ in
  blocks s !! 0%nat = Some (Block bs true) ∧
  (1 + 2 ≤ length bs)%nat ∧
  ∃ s',
    secure_wipe k (Ptr 0%nat (Z.of_nat 1)) (Z.of_nat 2) s = Ok tt s' ∧
    blocks s' !! 0%nat =
      Some (Block (take 1 bs ++ replicate 2 zero ++ drop (1 + 2) bs) true) ∧
    (∀ a', a' ≠ 0%nat → blocks s' !! a' = blocks s !! a') ∧
    length (blocks s') = length (blocks s) ∧
    objs s' = objs s ∧ avail s' = avail s.
Proof.
  intros k bs s.
  assert (blocks s !! 0%nat = Some (Block bs true)) as H1 by reflexivity.
  assert (1 + 2 ≤ length bs)%nat as H2 by (simpl; lia).
  split; [exact H1|]. split; [exact H2|].
  exact (secure_wipe_exact_range k 0%nat 1 2 bs s H1 H2).
Defined.

(** X8. Either wipe primitive is idempotent on a range within an allocated
    block: the wipe returns, wiping the range a second time returns too,
    and the machine the two wipes leave is exactly the machine the first
    wipe left. *)
Theorem secure_wipe_idempotent (k : kind) (a : addr) (i n : nat)
    (bs : list byte) (s : state (obj k)) :
  blocks s !! a = Some (Block bs true) →
  (i + n ≤ length bs)%nat →
  ∃ s1,
    secure_wipe k (Ptr a (Z.of_nat i)) (Z.of_nat n) s = Ok tt s1 ∧
    secure_wipe k (Ptr a (Z.of_nat i)) (Z.of_nat n) s1 = Ok tt s1 ∧
    (secure_wipe k (Ptr a (Z.of_nat i)) (Z.of_nat n) ;;
     secure_wipe k (Ptr a (Z.of_nat i)) (Z.of_nat n)) s = Ok tt s1.
Proof.
  intros Ha Hn. pose proof (lookup_lt_Some _ _ _ Ha) as Hlt.
  pose proof (secure_wipe_range k a i n bs s Ha Hn) as Hfirst.
  set (bs1 := take i bs ++ replicate n zero ++ drop (i + n) bs) in *.
  set (s1 := set_blocks _ s) in *.
  assert (length (take i bs) = i) as Hti by (rewrite length_take; lia).
  assert (secure_wipe k (Ptr a (Z.of_nat i)) (Z.of_nat n) s1 = Ok tt s1)
    as Hsecond.
  { rewrite (secure_wipe_range k a i n bs1 s1); cycle 1.
    { subst s1. simpl. by apply list_lookup_insert_eq. }
    { subst bs1. rewrite !length_app, Hti, length_replicate, length_drop. lia. }
    subst s1. rewrite set_blocks_twice. simpl. rewrite list_insert_insert_eq.
    do 4 f_equal. subst bs1.
    rewrite take_app_length' by done.
    rewrite drop_app_add' by done.
    by rewrite drop_app_length' by (by rewrite length_replicate). }
  exists s1. split; [exact Hfirst|]. split; [exact Hsecond|].
  by rewrite (bind_ok _ _ _ _ _ Hfirst).
Qed.

Lemma secure_wipe_idempotent_witness :
  let k := Buf in
  let bs := [x6b; x65; x79; x73] in
  let s : state (obj k) := State [Block bs true] 0 xaa ∅ in
  blocks s !! 0%nat = Some (Block bs true) ∧
  (1 + 2 ≤ length bs)%nat ∧
  ∃ s1,
    secure_wipe k (Ptr 0%nat (Z.of_nat 1)) (Z.of_nat 2) s = Ok tt s1 ∧
    secure_wipe k (Ptr 0%nat (Z.of_nat 1)) (Z.of_nat 2) s1 = Ok tt s1 ∧
    (secure_wipe k (Ptr 0%nat (Z.of_nat 1)) (Z.of_nat 2) ;;
     secure_wipe k (Ptr 0%nat (Z.of_nat 1)) (Z.of_nat 2)) s = Ok tt s1.
Proof.
  intros k bs s.
  assert (blocks s !! 0%nat = Some (Block bs true)) as H1 by reflexivity.
  assert (1 + 2 ≤ length bs)%nat as H2 by (simpl; lia).
  split; [exact H1|]. split; [exact H2|].
  exact (secure_wipe_idempotent k 0%nat 1 2 bs s H1 H2).
Defined.

End WipeRange.

(** ** Calls in sequence *)

Section Sequences.
Import Container.

(** X9. Constructing a [SecureString] from a text shorter than [SIZE_MAX]
    has exactly two outcomes. Either the allocator can supply the text's
    length plus one bytes, and then the object exists on one new block that
    holds the text and its terminator, every earlier block and every other
    object being as before; or it cannot, and [std::bad_alloc] leaves the
    machine exactly as it was. *)
Theorem string_ctor_all_or_nothing (this : objid) (str : list byte)
    (s : state SecureString.t) :
  Z.of_nat (length str) < SIZE_MAX →
  (Z.of_nat (length str) + 1 ≤ avail s ∧
   SecureString.ctor this str s =
     Ok tt (State (blocks s ++ [Block (str ++ [zero]) true])
                  (avail s - (Z.of_nat (length str) + 1)) (junk s)
                  (<[this := SecureString.Obj
                       (Vector.Vec (Ptr (length (blocks s)) 0)
                          (Z.of_nat (length str) + 1)
                          (Z.of_nat (length str) + 1))]> (objs s))))
  ∨
  (avail s < Z.of_nat (length str) + 1 ∧
   SecureString.ctor this str s = Throw bad_alloc s).
Proof.
  intros Hmax. destruct (decide (Z.of_nat (length str) + 1 ≤ avail s)) as [Hn|Hn].
  - left. split; [done|]. by apply string_ctor_ok.
  - right. split; [lia|]. apply string_ctor_fails; [done|lia].
Qed.

Lemma string_ctor_all_or_nothing_witness :
  let s : state SecureString.t := init 4 xaa in
  Z.of_nat (length secret) < SIZE_MAX ∧
  ((Z.of_nat (length secret) + 1 ≤ avail s ∧
    SecureString.ctor 1%nat secret s =
      Ok tt (State (blocks s ++ [Block (secret ++ [zero]) true])
                   (avail s - (Z.of_nat (length secret) + 1)) (junk s)
                   (<[1%nat := SecureString.Obj
                        (Vector.Vec (Ptr (length (blocks s)) 0)
                           (Z.of_nat (length secret) + 1)
                           (Z.of_nat (length secret) + 1))]> (objs s))))
   ∨
   (avail s < Z.of_nat (length secret) + 1 ∧
    SecureString.ctor 1%nat secret s = Throw bad_alloc s)).
Proof.
  intros s.
  assert (Z.of_nat (length secret) < SIZE_MAX) as H1 by (by vm_compute).
  split; [exact H1|].
  exact (string_ctor_all_or_nothing 1%nat secret s H1).
Defined.

(** Two objects of a machine in order that hold storage hold different
    blocks. *)
Lemma wf_owners_apart (k : kind) (s : state (obj k)) a b x y bs bs' :
  wf k s → b ≠ a → owns k s b x bs → owns k s a y bs' → x ≠ y.
Proof.
  intros [_ W2] Hne Hb Ha ->.
  apply owns_full in Hb as [Hb _]. apply owns_full in Ha as [Ha _].
  apply Hne. apply (W2 b a _ _ Hb Ha); by rewrite !storage_full.
Qed.

(** X10. On every machine a client can bring about, [b = std::move(a)]
    into an existing object [b], from an [a] that holds the block [y] with
    bytes [bs], returns with [b] holding [y], and the bytes of [y] are
    still [bs]: the wipe of the target's old storage touches no byte of
    what is assigned. *)
Theorem move_assign_delivers_contents (k : kind) (a b : objid) (y : addr)
    (bs : list byte) (s : state (obj k)) :
  reachable k s →
  b ≠ a →
  owns k s a y bs →
  is_Some (objs s !! b) →
  ∃ s', move_assign k b a s = Ok tt s' ∧ owns k s' b y bs.
Proof.
  intros Hr Hne Ha [ob Hb]. pose proof (reachable_wf k s Hr) as Hwf.
  destruct (wf_classify k s b ob Hwf Hb) as [Hh|(x & bs0 & Hown)].
  - destruct k; simpl in *; destruct Ha as [Hobj Hy].
    + eexists. split; [exact (buffer_move_assign_hollow b a _ s Hne Hh Hobj)|].
      split; simpl; [|done].
      rewrite lookup_insert_ne by done. apply lookup_insert_eq.
    + eexists. split; [exact (string_move_assign_hollow b a _ s Hne Hh Hobj)|].
      split; simpl; [|done].
      rewrite lookup_insert_ne by done. apply lookup_insert_eq.
  - pose proof (wf_owners_apart k s a b x y bs0 bs Hwf Hne Hown Ha) as Hxy.
    destruct k; simpl in *; destruct Ha as [Hobj Hy].
    + eexists.
      split; [exact (buffer_move_assign_owned b a x bs0 _ s Hne Hown Hobj)|].
      split; simpl.
      * rewrite lookup_insert_ne by done. apply lookup_insert_eq.
      * by rewrite list_lookup_insert_ne.
    + eexists.
      split; [exact (string_move_assign_owned b a x bs0 _ s Hne Hown Hobj)|].
      split; simpl.
      * rewrite lookup_insert_ne by done. apply lookup_insert_eq.
      * by rewrite list_lookup_insert_ne.
Qed.

Lemma move_assign_delivers_contents_witness :
  let k := Buf in
  let s : state (obj k) :=
    after (run (@Construct Buf 2%nat 2))
      (after (run (@Construct Buf 1%nat 4)) (init 64 xaa)) in
  reachable k s ∧
  1%nat ≠ 2%nat ∧
  owns k s 2%nat 1%nat [zero; zero] ∧
  is_Some (objs s !! 1%nat) ∧
  ∃ s', move_assign k 1%nat 2%nat s = Ok tt s' ∧ owns k s' 1%nat 1%nat [zero; zero].
Proof.
  intros k s.
  assert (reachable k s) as H1.
  { apply reach_run; [|by vm_compute | eexists; vm_compute; reflexivity].
    apply reach_run; [apply reach_init | by vm_compute | eexists; vm_compute; reflexivity]. }
  assert (1%nat ≠ 2%nat) as H2 by lia.
  assert (owns k s 2%nat 1%nat [zero; zero]) as H3 by (split; reflexivity).
  assert (is_Some (objs s !! 1%nat)) as H4 by (eexists; reflexivity).
  split; [exact H1|]. split; [exact H2|]. split; [exact H3|]. split; [exact H4|].
  exact (move_assign_delivers_contents k 2%nat 1%nat 1%nat _ s H1 H2 H3 H4).
Defined.

(** X11. When [b] is move-constructed from an [a] that holds the block [x]
    and then both objects are destroyed, in that order, every call returns,
    [x] is zeroed and released exactly once, its bytes are back with the
    allocator, no other block is touched, and both objects are gone: the
    destructor of the moved-from object neither wipes nor releases. *)
Theorem move_then_destroy_both (k : kind) (a b : objid) (x : addr)
    (bs : list byte) (s : state (obj k)) :
  b ≠ a →
  owns k s a x bs →
  ∃ s',
    (move_ctor k b a ;; dtor k a ;; dtor k b) s = Ok tt s' ∧
    blocks s' = <[x := Block (replicate (length bs) zero) false]> (blocks s) ∧
    avail s' = avail s + Z.of_nat (length bs) ∧
    objs s' !! a = None ∧ objs s' !! b = None.
Proof.
  intros Hne Ha. destruct k; simpl in *; destruct Ha as [Hobj Hx].
  - rewrite (bind_ok _ _ _ _ _ (buffer_move_ctor_ok b a _ s Hobj)). cbv beta.
    set (s1 := set_objs _ s).
    assert (SecureBuffer.hollow s1 a) as Hh.
    { unfold SecureBuffer.hollow. simpl.
      rewrite lookup_insert_ne by done. apply lookup_insert_eq. }
    rewrite (bind_ok _ _ _ _ _ (buffer_dtor_hollow a s1 Hh)). cbv beta.
    set (s2 := set_objs _ s1).
    assert (SecureBuffer.owns s2 b x bs) as Hb.
    { split; simpl; [|done].
      rewrite lookup_delete_ne by done. apply lookup_insert_eq. }
    rewrite (buffer_dtor_owned b x bs s2 Hb). eexists. split; [done|]. simpl.
    repeat split.
    + rewrite lookup_delete_ne by done. apply lookup_delete_eq.
    + apply lookup_delete_eq.
  - rewrite (bind_ok _ _ _ _ _ (string_move_ctor_ok b a _ s Hobj)). cbv beta.
    set (s1 := set_objs _ s).
    assert (SecureString.hollow s1 a) as Hh.
    { unfold SecureString.hollow. simpl.
      rewrite lookup_insert_ne by done. apply lookup_insert_eq. }
    rewrite (bind_ok _ _ _ _ _ (string_dtor_hollow a s1 Hh)). cbv beta.
    set (s2 := set_objs _ s1).
    assert (SecureString.owns s2 b x bs) as Hb.
    { split; simpl; [|done].
      rewrite lookup_delete_ne by done. apply lookup_insert_eq. }
    rewrite (string_dtor_owned b x bs s2 Hb). eexists. split; [done|]. simpl.
    repeat split.
    + rewrite lookup_delete_ne by done. apply lookup_delete_eq.
    + apply lookup_delete_eq.
Qed.

Lemma move_then_destroy_both_witness :
  let k := Str in
  let bs := [x6b; x00] in
  let s : state (obj k) :=
    State [Block bs true] 0 xaa
          (<[1%nat := SecureString.Obj (Vector.Vec (Ptr 0%nat 0) 2 2)]> ∅) in
  2%nat ≠ 1%nat ∧
  owns k s 1%nat 0%nat bs ∧
  ∃ s',
    (move_ctor k 2%nat 1%nat ;; dtor k 1%nat ;; dtor k 2%nat) s = Ok tt s' ∧
    blocks s' = <[0%nat := Block (replicate (length bs) zero) false]> (blocks s) ∧
    avail s' = avail s + Z.of_nat (length bs) ∧
    objs s' !! 1%nat = None ∧ objs s' !! 2%nat = None.
Proof.
  intros k bs s.
  assert (2%nat ≠ 1%nat) as H1 by lia.
  assert (owns k s 1%nat 0%nat bs) as H2 by (split; reflexivity).
  split; [exact H1|]. split; [exact H2|].
  exact (move_then_destroy_both k 1%nat 2%nat 0%nat bs s H1 H2).
Defined.

(** X12. On every machine a client can bring about, when [b], holding the
    block [x], is move-assigned from [a], holding the block [y], and then
    both objects are destroyed, every call returns and both blocks end up
    released with every byte zero and their bytes back with the allocator.
    The buffer passes [x] to [a] and releases it in [a]'s destructor, the
    string releases [x] in the assignment; after both destructors the two
    designs have done the same. *)
Theorem assign_then_destroy_both (k : kind) (a b : objid) (x y : addr)
    (bs bs' : list byte) (s : state (obj k)) :
  reachable k s →
  b ≠ a →
  owns k s b x bs →
  owns k s a y bs' →
  ∃ s',
    (move_assign k b a ;; dtor k a ;; dtor k b) s = Ok tt s' ∧
    blocks s' !! x = Some (Block (replicate (length bs) zero) false) ∧
    blocks s' !! y = Some (Block (replicate (length bs') zero) false) ∧
    (∀ z, z ≠ x → z ≠ y → blocks s' !! z = blocks s !! z) ∧
    avail s' = avail s + Z.of_nat (length bs) + Z.of_nat (length bs') ∧
    objs s' !! a = None ∧ objs s' !! b = None.
Proof.
  intros Hr Hne Hb Ha. pose proof (reachable_wf k s Hr) as Hwf.
  pose proof (wf_owners_apart k s a b x y bs bs' Hwf Hne Hb Ha) as Hxy.
  destruct k; simpl in *.
  - destruct Ha as [Hoa Hy]. pose proof Hb as [Hob Hx].
    pose proof (lookup_lt_Some _ _ _ Hx) as Hxl.
    pose proof (lookup_lt_Some _ _ _ Hy) as Hyl.
    rewrite (bind_ok _ _ _ _ _ (buffer_move_assign_owned b a x bs _ s Hne Hb Hoa)).
    cbv beta. set (s1 := State _ _ _ _).
    assert (SecureBuffer.owns s1 a x (replicate (length bs) zero)) as Ha1.
    { split; simpl.
      - rewrite length_replicate. apply lookup_insert_eq.
      - by apply list_lookup_insert_eq. }
    rewrite (bind_ok _ _ _ _ _ (buffer_dtor_owned a x _ s1 Ha1)). cbv beta.
    set (s2 := State _ _ _ _).
    assert (SecureBuffer.owns s2 b y bs') as Hb2.
    { split; simpl.
      - rewrite lookup_delete_ne by done.
        rewrite lookup_insert_ne by done. apply lookup_insert_eq.
      - by rewrite !list_lookup_insert_ne. }
    rewrite (buffer_dtor_owned b y bs' s2 Hb2). eexists. split; [done|]. simpl.
    rewrite !length_replicate. repeat split.
    + rewrite list_lookup_insert_ne by done.
      apply list_lookup_insert_eq. by rewrite length_insert.
    + apply list_lookup_insert_eq. by rewrite !length_insert.
    + intros z Hzx Hzy. by rewrite !list_lookup_insert_ne.
    + rewrite lookup_delete_ne by done. apply lookup_delete_eq.
    + apply lookup_delete_eq.
  - destruct Ha as [Hoa Hy]. pose proof Hb as [Hob Hx].
    pose proof (lookup_lt_Some _ _ _ Hx) as Hxl.
    pose proof (lookup_lt_Some _ _ _ Hy) as Hyl.
    rewrite (bind_ok _ _ _ _ _ (string_move_assign_owned b a x bs _ s Hne Hb Hoa)).
    cbv beta. set (s1 := State _ _ _ _).
    assert (SecureString.hollow s1 a) as Ha1.
    { unfold SecureString.hollow. simpl. apply lookup_insert_eq. }
    rewrite (bind_ok _ _ _ _ _ (string_dtor_hollow a s1 Ha1)). cbv beta.
    set (s2 := set_objs _ s1).
    assert (SecureString.owns s2 b y bs') as Hb2.
    { split; simpl.
      - rewrite lookup_delete_ne by done.
        rewrite lookup_insert_ne by done. apply lookup_insert_eq.
      - by rewrite list_lookup_insert_ne. }
    rewrite (string_dtor_owned b y bs' s2 Hb2). eexists. split; [done|]. simpl.
    repeat split.
    + rewrite list_lookup_insert_ne by done. by apply list_lookup_insert_eq.
    + apply list_lookup_insert_eq. by rewrite length_insert.
    + intros z Hzx Hzy. by rewrite !list_lookup_insert_ne.
    + rewrite lookup_delete_ne by done. apply lookup_delete_eq.
    + apply lookup_delete_eq.
Qed.

Lemma assign_then_destroy_both_witness :
  let k := Str in
  let s : state (obj k) :=
    after (run (@Construct Str 2%nat secret))
      (after (run (@Construct Str 1%nat [x6b])) (init 64 xaa)) in
  reachable k s ∧
  1%nat ≠ 2%nat ∧
  owns k s 1%nat 0%nat [x6b; zero] ∧
  owns k s 2%nat 1%nat (secret ++ [zero]) ∧
  ∃ s',
    (move_assign k 1%nat 2%nat ;; dtor k 2%nat ;; dtor k 1%nat) s = Ok tt s' ∧
    blocks s' !! 0%nat = Some (Block (replicate (length [x6b; zero]) zero) false) ∧
    blocks s' !! 1%nat =
      Some (Block (replicate (length (secret ++ [zero])) zero) false) ∧
    (∀ z, z ≠ 0%nat → z ≠ 1%nat → blocks s' !! z = blocks s !! z) ∧
    avail s' = avail s + Z.of_nat (length [x6b; zero])
               + Z.of_nat (length (secret ++ [zero])) ∧
    objs s' !! 2%nat = None ∧ objs s' !! 1%nat = None.
Proof.
  intros k s.
  assert (reachable k s) as H1.
  { apply reach_run; [|by vm_compute | eexists; vm_compute; reflexivity].
    apply reach_run; [apply reach_init | by vm_compute | eexists; vm_compute; reflexivity]. }
  assert (1%nat ≠ 2%nat) as H2 by lia.
  assert (owns k s 1%nat 0%nat [x6b; zero]) as H3 by (split; reflexivity).
  assert (owns k s 2%nat 1%nat (secret ++ [zero])) as H4 by (split; reflexivity).
  split; [exact H1|]. split; [exact H2|]. split; [exact H3|]. split; [exact H4|].
  exact (assign_then_destroy_both k 2%nat 1%nat 0%nat 1%nat _ _ s H1 H2 H3 H4).
Defined.

(** X13. Constructing a container and destroying it again, when the
    allocator can supply what the constructor asks for, returns with one
    more block on the heap, released, of the requested length and with
    every byte zero; the allocator has all its bytes back, and the object
    store is as it was with the object absent. For a [SecureString] no byte
    of the text outlives the object. *)
Theorem construct_destroy_round_trip (k : kind) (this : objid)
    (arg : ctor_arg k) (s : state (obj k)) :
  arg_ok k arg →
  demand k arg ≤ avail s →
  (ctor k this arg ;; dtor k this) s =
    Ok tt (State (blocks s ++
                    [Block (replicate (Z.to_nat (demand k arg)) zero) false])
                 (avail s) (junk s) (delete this (objs s))).
Proof.
  intros Hok Hav. destruct k; simpl in *.
  - destruct Hok as [H0 _].
    rewrite (bind_ok _ _ _ _ _ (buffer_ctor_ok this arg s H0 Hav)). cbv beta.
    set (s1 := State _ _ _ _).
    assert (SecureBuffer.owns s1 this (length (blocks s))
              (replicate (Z.to_nat arg) zero)) as Hown.
    { split; simpl.
      - rewrite length_replicate, Z2Nat.id by done. apply lookup_insert_eq.
      - by apply list_lookup_middle. }
    rewrite (buffer_dtor_owned _ _ _ s1 Hown). simpl.
    rewrite insert_last, !length_replicate, delete_insert_eq, Z2Nat.id by done.
    do 2 f_equal. lia.
  - rewrite (bind_ok _ _ _ _ _ (string_ctor_ok this arg s Hok Hav)). cbv beta.
    set (s1 := State _ _ _ _).
    assert (SecureString.owns s1 this (length (blocks s)) (arg ++ [zero])) as Hown.
    { split; simpl.
      - rewrite length_app, Nat2Z.inj_add. apply lookup_insert_eq.
      - by apply list_lookup_middle. }
    rewrite (string_dtor_owned _ _ _ s1 Hown). simpl.
    rewrite insert_last, delete_insert_eq, length_app. simpl.
    replace (Z.to_nat (Z.of_nat (length arg) + 1)) with (length arg + 1)%nat by lia.
    do 2 f_equal. lia.
Qed.

Lemma construct_destroy_round_trip_witness :
  let k := Str in
  let s : state (obj k) := init 64 xaa in
  arg_ok k secret ∧
  demand k secret ≤ avail s ∧
  (ctor k 1%nat secret ;; dtor k 1%nat) s =
    Ok tt (State (blocks s ++
                    [Block (replicate (Z.to_nat (demand k secret)) zero) false])
                 (avail s) (junk s) (delete 1%nat (objs s))).
Proof.
  intros k s.
  assert (arg_ok k secret) as H1 by (by vm_compute).
  assert (demand k secret ≤ avail s) as H2 by (by vm_compute).
  split; [exact H1|]. split; [exact H2|].
  exact (construct_destroy_round_trip k 1%nat secret s H1 H2).
Defined.

End Sequences.
